(** * wpool: worker pool, task and task context of kitex (package wpool)

    A shallow embedding of the three parts of package [wpool], the task
    context ([taskContext]), the task ([task]) and the pool ([Pool]), and
    the properties of the worker-pool specification that are checked on it.

    Conventions of the embedding.
    - [time.Time] is an instant counted in nanoseconds from the zero Time
      (January 1, year 1, UTC), so [IsZero t] is [t = 0]; [time.Duration] is
      a signed count of nanoseconds.  Saturation of [Time.Add] and
      [time.Until] at the ends of the int64 range is outside the model (it
      does not change the sign tested by [Wait]).
    - A Go [error] interface value is an [option errval]: [None] is [nil].
      Two error values are equal when Go's [==] on the interface values is
      true, so every value made by [errors.New] or [fmt.Errorf] carries an
      identity.
    - [Run] and [Wait] execute in different goroutines.  Every access to the
      shared task (a mutex-protected method of the context, an atomic
      [Store] or [Load]) is one step of an executable step function, and a
      schedule is a list of actions. *)

From Stdlib Require Import ZArith List String Ascii Bool Lia.
Import ListNotations.
Local Open Scope Z_scope.

(** ** Time *)

Definition Time := Z.
Definition Duration := Z.

Definition Millisecond : Duration := 1000000.
Definition Second : Duration := 1000 * Millisecond.

Definition IsZero (t : Time) : bool := t =? 0.
Definition Before (t u : Time) : bool := t <? u.
Definition Add (t : Time) (d : Duration) : Time := t + d.
(** [time.Until(t)] evaluated when the clock shows [now]. *)
Definition Until (now t : Time) : Duration := t - now.

(** ** Errors *)

(** Only the fields of the RPC metadata that an error message can show. *)
Record RPCInfo := { to_service : string; to_method : string }.

(** The non-nil error values that occur.  [errTaskDone] is the unexported
    sentinel of the package; [DeadlineExceeded] and [Canceled] are the two
    errors of package context; [ErrorValue id msg] is any other error,
    [id] standing for its identity under [==]; [PanicError] is the value
    built by [fmt.Errorf] in the deferred function of [Run] and
    [ClientPanicError] the typed error built by [rpcinfo.ClientPanicToErr],
    whose source is not part of package wpool. *)
Inductive errval :=
| errTaskDone
| DeadlineExceeded
| Canceled
| ErrorValue (id : N) (msg : string)
| PanicError (panicInfo stack : string)
| ClientPanicError (ri : RPCInfo) (panicInfo stack : string).

Definition error := option errval.
Definition nil : error := None.

Definition RPCInfo_eqb (a b : RPCInfo) : bool :=
  String.eqb (to_service a) (to_service b) && String.eqb (to_method a) (to_method b).

Definition errval_eqb (a b : errval) : bool :=
  match a, b with
  | errTaskDone, errTaskDone => true
  | DeadlineExceeded, DeadlineExceeded => true
  | Canceled, Canceled => true
  | ErrorValue i m, ErrorValue j n => N.eqb i j && String.eqb m n
  | PanicError v s, PanicError w t => String.eqb v w && String.eqb s t
  | ClientPanicError r v s, ClientPanicError q w t =>
      RPCInfo_eqb r q && String.eqb v w && String.eqb s t
  | _, _ => false
  end.

(** Go's [a == b] on two error interface values. *)
Definition error_eqb (a b : error) : bool :=
  match a, b with
  | None, None => true
  | Some x, Some y => errval_eqb x y
  | _, _ => false
  end.

Definition newline : string := String (ascii_of_nat 10) EmptyString.

(** The [Error()] method: the message of an error value.  The message of
    [PanicError] follows the format string of [Run], [%v] of the panic value
    and [%s] of the stack being the strings carried by the value.  The
    message of [ClientPanicError] is modelled from the spec (its source is
    not part of the package): it shows the RPC metadata, the panic value and
    the stack. *)
Definition Error (e : errval) : string :=
  match e with
  | errTaskDone => "task done"
  | DeadlineExceeded => "context deadline exceeded"
  | Canceled => "context canceled"
  | ErrorValue _ msg => msg
  | PanicError v stack =>
      "KITEX: panic without rpcinfo, error=" ++ v ++ newline ++ "stack=" ++ stack
  | ClientPanicError ri v stack =>
      "KITEX: client panic, to_service=" ++ to_service ri ++ " to_method="
        ++ to_method ri ++ " error=" ++ v ++ newline ++ "stack=" ++ stack
  end%string.

(** [strings.Contains]. *)
Fixpoint HasPrefix (s p : string) : bool :=
  match p, s with
  | EmptyString, _ => true
  | String c p', String d s' => Ascii.eqb c d && HasPrefix s' p'
  | String _ _, EmptyString => false
  end.

Fixpoint Contains (s sub : string) : bool :=
  HasPrefix s sub ||
  match s with
  | EmptyString => false
  | String _ s' => Contains s' sub
  end.

(** ** The task context *)

(** The caller's context, as far as [taskContext] and [task] look at it:
    the two results of [Deadline()], the result of [Err()] (its [Done()]
    channel is closed exactly when [Err()] is not nil) and the RPC metadata
    that [rpcinfo.GetRPCInfo] finds in it. *)
Record context := {
  ctxDeadline : Time;
  ctxDeadlineOk : bool;
  ctxErr : error;
  ctxRPCInfo : option RPCInfo
}.

(** [context.Background()]. *)
Definition Background : context :=
  {| ctxDeadline := 0; ctxDeadlineOk := false; ctxErr := nil; ctxRPCInfo := None |}.

(** [struct taskContext].  [Context] is the embedded caller's context, which
    the environment may cancel at any time; [ch] counts how many times
    [close(p.ch)] has run on the channel made by [newTaskContext] (a second
    close would panic in Go); the mutex is the atomicity of the methods. *)
Record taskContext := {
  Context : context;
  dl : Time;
  ch : nat;
  err : error
}.

(** [newTaskContext(ctx, timeout)], called when the clock shows [now]. *)
Definition newTaskContext (now : Time) (ctx : context) (timeout : Duration) : taskContext :=
  let ret_dl := if ctxDeadlineOk ctx then ctxDeadline ctx else 0 in
  let ret_dl :=
    if negb (timeout =? 0) then
      let dl' := Add now timeout in
      if IsZero ret_dl || Before dl' ret_dl then dl' else ret_dl
    else ret_dl in
  {| Context := ctx; dl := ret_dl; ch := 0%nat; err := nil |}.

(** [(p *taskContext) Deadline()]. *)
Definition Deadline (p : taskContext) : Time * bool := (dl p, negb (IsZero (dl p))).

(** [(p *taskContext) Done()]: whether a receive from the channel succeeds,
    that is whether the channel has been closed. *)
Definition Done (p : taskContext) : bool := (0 <? ch p)%nat.

(** [(p *taskContext) Err()]. *)
Definition Err (p : taskContext) : error :=
  let err := err p in
  if error_eqb err nil || error_eqb err (Some errTaskDone)
  then ctxErr (Context p)
  else err.

(** [(p *taskContext) Cancel(err)]. *)
Definition Cancel (e : error) (p : taskContext) : taskContext :=
  if negb (error_eqb e nil) && error_eqb (err p) nil
  then {| Context := Context p; dl := dl p; ch := S (ch p); err := e |}
  else p.

(** [Cancel] called with each error of a list, in order. *)
Definition CancelAll (es : list error) (p : taskContext) : taskContext :=
  fold_left (fun q e => Cancel e q) es p.

(** ** The task *)

(** [atomic.Value] holding an error: [None] until the first [Store]. *)
Definition atomic_Value := option errval.

(** [Value.Store(x)]: panics ([None]) when [x] is nil.  The slot of a task
    receives at most one [Store] between two resets, so the other panic of
    [Store], on a value of another dynamic type than the first, cannot
    happen and is left out. *)
Definition Store (x : error) (v : atomic_Value) : option atomic_Value :=
  match x with
  | None => None
  | Some e => Some (Some e)
  end.

(** [Value.Load()]: nil when nothing was stored. *)
Definition Load (v : atomic_Value) : error := v.

(** What one call [t.ep(t.ctx, t.req, t.resp)] does to the task in the run
    that is considered, as the deferred function of [Run] sees it.

    - [EpReturn e]: it returns [e] (nil for success).
    - [EpPanic panicInfo stack]: it panics with a value that [recover()]
      returns as not nil, of which [panicInfo] is the [%v] form and [stack]
      what [debug.Stack()] prints in the deferred function.  A nil endpoint
      is an endpoint that panics.
    - [EpPanicNil]: it calls [panic(nil)] in a program where [recover()]
      then returns nil (the language until go 1.20, and GODEBUG=panicnil=1
      afterwards; otherwise the recovered value is a *runtime.PanicNilError
      and the case is [EpPanic]).  The panic stops at the deferred function,
      which cannot tell it from no panic.
    - [EpGoexit]: it calls [runtime.Goexit()]: the deferred function runs,
      [recover()] returns nil, and the goroutine ends.
    - [EpAwaitDone e]: it blocks on [<-ctx.Done()], the channel of the task
      context, and returns [e] once the channel is closed, as the endpoint
      of the test Timeout of [TestTask] does.
    - [EpBlock]: it never returns.

    For the first four the call may end at any moment: the time it takes is
    the position of the first step of [Run] in the schedule.  What the
    endpoint does to the caller's context is a step of the environment (see
    [action]). *)
Inductive epOutcome :=
| EpReturn (e : error)
| EpPanic (panicInfo stack : string)
| EpPanicNil
| EpGoexit
| EpAwaitDone (e : error)
| EpBlock.

(** [struct task].  [ctx] tells whether [t.ctx] points to the context object
    (kept in [obj] of the [state]) or is nil; [wg] is the counter of the
    WaitGroup; [task_err] is the field [err].  The opaque [req] and [resp]
    are only passed on to the endpoint and are left out. *)
Record task := {
  ctx : bool;
  wg : nat;
  ep : option epOutcome;
  task_err : atomic_Value
}.

(** Modelled from the spec: [rpcinfo.GetRPCInfo(ctx)], which is not under
    src/: the RPC metadata attached to the context, if any.  The task context
    embeds the caller's context, so the lookup reaches the caller's. *)
Definition GetRPCInfo (p : taskContext) : option RPCInfo := ctxRPCInfo (Context p).

(** Modelled from the spec: [rpcinfo.ClientPanicToErr(ctx, panicInfo, ri, true)],
    which is not under src/: the panic is converted to a typed client-panic
    error that carries the panic value and a stack (and the RPC metadata). *)
Definition ClientPanicToErr (panicInfo : string) (ri : RPCInfo) (stack : string) : error :=
  Some (ClientPanicError ri panicInfo stack).

(** [fmt.Errorf("KITEX: panic without rpcinfo, error=%v\nstack=%s", ...)]. *)
Definition Errorf_panic (panicInfo stack : string) : error :=
  Some (PanicError panicInfo stack).

(** Where the goroutine executing [t.Run()] stands. *)
Inductive runPc :=
| RunStart                              (* t.ep not called yet *)
| RunReturned (e : error)               (* err = t.ep(...) returned *)
| RunPanicking (panicInfo stack : string) (* panicking, deferred function starts *)
| RunDeferred                           (* about to t.Cancel(errTaskDone) *)
| RunRecycling                          (* in t.recycle(), at t.wg.Wait() *)
| RunDone
| RunCrashed.                           (* a panic left the deferred function *)

(** The cases of the select statements of [Wait] and [waitNoTimeout]. *)
Inductive branch :=
| BrDone        (* <-t.ctx.Done() *)
| BrParent      (* <-t.ctx.Context.Done() *)
| BrTimer.      (* <-tm.C *)

(** Where the goroutine executing [t.Wait()] stands. *)
Inductive waitPc :=
| WaitStart
| WaitExpired                 (* d < 0: about to t.Cancel(context.DeadlineExceeded) *)
| WaitEarlyErr                (* about to return t.ctx, t.ctx.Err() *)
| WaitSelect (timed : bool)   (* blocked in select; timed = false in waitNoTimeout *)
| WaitFired (b : branch)      (* a case was chosen, its body not yet run *)
| WaitLoad                    (* about to t.err.Load() *)
| WaitCtxErr                  (* slot was empty: about to call t.ctx.Err() *)
| WaitReturn (r : error)      (* results set, deferred t.wg.Done() pending *)
| WaitDone (r : error).       (* returned (t.ctx, r) *)

Record state := {
  clock : Time;
  obj : taskContext;
  tsk : task;
  rpc : runPc;
  wpc : waitPc
}.

(** [newTask(ctx, timeout, req, resp, ep)] at time [now], with the two
    goroutines that [RunTask] (or the test) starts on it.  [poolTask] returns
    a task whose fields were cleared by [recycle] or a new one; all fields
    are overwritten. *)
Definition newTask (now : Time) (c : context) (timeout : Duration) (e : epOutcome) : state :=
  {| clock := now;
     obj := newTaskContext now c timeout;
     tsk := {| ctx := true; wg := 1%nat; ep := Some e; task_err := None |};
     rpc := RunStart;
     wpc := WaitStart |}.

Definition set_obj (s : state) (o : taskContext) : state :=
  {| clock := clock s; obj := o; tsk := tsk s; rpc := rpc s; wpc := wpc s |}.
Definition set_tsk (s : state) (t : task) : state :=
  {| clock := clock s; obj := obj s; tsk := t; rpc := rpc s; wpc := wpc s |}.
Definition set_rpc (s : state) (r : runPc) : state :=
  {| clock := clock s; obj := obj s; tsk := tsk s; rpc := r; wpc := wpc s |}.
Definition set_wpc (s : state) (w : waitPc) : state :=
  {| clock := clock s; obj := obj s; tsk := tsk s; rpc := rpc s; wpc := w |}.
Definition set_slot (s : state) (v : atomic_Value) : state :=
  set_tsk s {| ctx := ctx (tsk s); wg := wg (tsk s); ep := ep (tsk s); task_err := v |}.

(** [(t *task) Cancel(err)] forwards to the context. *)
Definition task_Cancel (e : error) (s : state) : state := set_obj s (Cancel e (obj s)).

(** One step of [(t *task) Run()].  [None]: the goroutine cannot move.
    At [RunStart] the step is the end of the call of the endpoint: a return
    goes on to the store, a panic with a value to the deferred function with
    that value, and a panic with nil or [runtime.Goexit()] to the deferred
    function with [recover() == nil], that is straight to
    [t.Cancel(errTaskDone)]. *)
Definition Run_step (s : state) : option state :=
  match rpc s with
  | RunStart =>
      match ep (tsk s) with
      | Some (EpReturn e) => Some (set_rpc s (RunReturned e))
      | Some (EpPanic v st) => Some (set_rpc s (RunPanicking v st))
      | Some EpPanicNil => Some (set_rpc s RunDeferred)
      | Some EpGoexit => Some (set_rpc s RunDeferred)
      | Some (EpAwaitDone e) =>
          if Done (obj s) then Some (set_rpc s (RunReturned e)) else None
      | Some EpBlock => None
      | None => None
      end
  | RunReturned e =>
      if negb (error_eqb e nil) then
        match Store e (task_err (tsk s)) with
        | Some v => Some (set_rpc (set_slot s v) RunDeferred)
        | None =>
            Some (set_rpc s (RunPanicking "sync/atomic: store of nil value into Value" ""))
        end
      else Some (set_rpc s RunDeferred)
  | RunPanicking v st =>
      let e := match GetRPCInfo (obj s) with
               | Some ri => ClientPanicToErr v ri st
               | None => Errorf_panic v st
               end in
      match Store e (task_err (tsk s)) with
      | Some v => Some (set_rpc (set_slot s v) RunDeferred)
      | None => Some (set_rpc s RunCrashed)
      end
  | RunDeferred => Some (set_rpc (task_Cancel (Some errTaskDone) s) RunRecycling)
  | RunRecycling =>
      match wg (tsk s) with
      | O => Some (set_rpc (set_tsk s {| ctx := false; wg := O; ep := None;
                                         task_err := None |}) RunDone)
      | S _ => None
      end
  | RunDone | RunCrashed => None
  end.

(** Whether a case of the select can proceed.  The timer was reset to
    [d = time.Until(dl)], so it fires no earlier than [dl]. *)
Definition ready (timed : bool) (b : branch) (s : state) : bool :=
  match b with
  | BrDone => Done (obj s)
  | BrParent => negb (error_eqb (ctxErr (Context (obj s))) nil)
  | BrTimer => timed && (dl (obj s) <=? clock s)
  end.

(** One step of [(t *task) Wait()] that is not the choice of a select case. *)
Definition Wait_step (s : state) : option state :=
  match wpc s with
  | WaitStart =>
      let '(dl, ok) := Deadline (obj s) in
      if negb ok then Some (set_wpc s (WaitSelect false))
      else
        let d := Until (clock s) dl in
        if d <? 0 then Some (set_wpc s WaitExpired)
        else Some (set_wpc s (WaitSelect true))
  | WaitExpired => Some (set_wpc (task_Cancel (Some DeadlineExceeded) s) WaitEarlyErr)
  | WaitEarlyErr => Some (set_wpc s (WaitReturn (Err (obj s))))
  | WaitSelect _ => None
  | WaitFired BrDone => Some (set_wpc s WaitLoad)
  | WaitFired BrParent =>
      Some (set_wpc (task_Cancel (ctxErr (Context (obj s))) s) WaitLoad)
  | WaitFired BrTimer => Some (set_wpc (task_Cancel (Some DeadlineExceeded) s) WaitLoad)
  | WaitLoad =>
      match Load (task_err (tsk s)) with
      | Some v => Some (set_wpc s (WaitReturn (Some v)))
      | None => Some (set_wpc s WaitCtxErr)
      end
  | WaitCtxErr => Some (set_wpc s (WaitReturn (Err (obj s))))
  | WaitReturn r =>
      Some (set_wpc (set_tsk s {| ctx := ctx (tsk s); wg := pred (wg (tsk s));
                                  ep := ep (tsk s); task_err := task_err (tsk s) |})
                    (WaitDone r))
  | WaitDone _ => None
  end.

(** The select of [Wait] ([timed]) or [waitNoTimeout] takes case [b]. *)
Definition Select_step (b : branch) (s : state) : option state :=
  match wpc s with
  | WaitSelect timed =>
      if ready timed b s then Some (set_wpc s (WaitFired b)) else None
  | _ => None
  end.

(** What can happen next: time passes, the caller's context ends with an
    error (its [Done()] closes), or one of the two goroutines moves. *)
Inductive action :=
| Tick (d : Duration)
| ParentDone (e : errval)
| RunStep
| WaitStep
| Select (b : branch).

Definition step (a : action) (s : state) : option state :=
  match a with
  | Tick d =>
      if 0 <=? d
      then Some {| clock := clock s + d; obj := obj s; tsk := tsk s;
                   rpc := rpc s; wpc := wpc s |}
      else None
  | ParentDone e =>
      match ctxErr (Context (obj s)) with
      | None =>
          let c := Context (obj s) in
          Some (set_obj s {| Context := {| ctxDeadline := ctxDeadline c;
                                           ctxDeadlineOk := ctxDeadlineOk c;
                                           ctxErr := Some e;
                                           ctxRPCInfo := ctxRPCInfo c |};
                             dl := dl (obj s); ch := ch (obj s); err := err (obj s) |})
      | Some _ => None
      end
  | RunStep => Run_step s
  | WaitStep => Wait_step s
  | Select b => Select_step b s
  end.

(** A schedule, executed from [s]; [None] when some action is not enabled. *)
Fixpoint exec (acts : list action) (s : state) : option state :=
  match acts with
  | [] => Some s
  | a :: rest =>
      match step a s with
      | Some s' => exec rest s'
      | None => None
      end
  end.

(** ** The worker pool *)

(** An int32 after an addition: two's-complement wrap-around, as
    [atomic.AddInt32] and the conversion [int32(maxIdle)] do. *)
Definition wrap32 (z : Z) : Z := (z + 2 ^ 31) mod 2 ^ 32 - 2 ^ 31.

(** [struct Pool].  [ticker] is the channel that stops the current tick
    loop ([None] is nil); channels are named by numbers.  The rendezvous
    channel [tasks] has no content of its own: what matters is whether a
    worker is blocked receiving from it (see [RunTask]). *)
Record Pool := {
  size : Z;
  maxIdle : Z;
  maxIdleTime : Duration;
  ticker : option nat
}.

(** [New(maxIdle, maxIdleTime)]. *)
Definition New (maxIdle : Z) (maxIdleTime : Duration) : Pool :=
  {| size := 0; maxIdle := wrap32 maxIdle; maxIdleTime := maxIdleTime; ticker := None |}.

(** [(p *Pool) Size()]. *)
Definition Size (p : Pool) : Z := size p.

Definition set_size (p : Pool) (n : Z) : Pool :=
  {| size := n; maxIdle := maxIdle p; maxIdleTime := maxIdleTime p; ticker := ticker p |}.

(** [atomic.AddInt32(&p.size, delta)]: the new value and the pool. *)
Definition AddInt32 (p : Pool) (delta : Z) : Z * Pool :=
  let n := wrap32 (size p + delta) in (n, set_size p n).

(** What a call starts or closes, in program order. *)
Inductive event :=
| CloseTicker (c : nat)              (* close(p.ticker) *)
| GoTicker (c : nat) (d : Duration)  (* go func() { tick loop on c, period d } *)
| GoWorker                           (* go func(t *task) { worker } (t) *)
| GoRun.                             (* go t.Run() *)

(** The period of the tick loop started by [createTicker]: the division
    truncates, and [createWorker] calls [createTicker] only with
    [1 < maxIdle], so the divisor is not zero there. *)
Definition tickPeriod (p : Pool) : Duration :=
  let d := Z.quot (Z.quot (maxIdleTime p) (maxIdle p)) 10 in
  if d <? 10 * Millisecond then 10 * Millisecond else d.

(** [(p *Pool) createTicker()]. *)
Definition createTicker (p : Pool) : Pool * list event :=
  let closing := match ticker p with
                 | Some c => [CloseTicker c]
                 | None => []
                 end in
  let c := match ticker p with
           | Some c => S c
           | None => O
           end in
  ({| size := size p; maxIdle := maxIdle p; maxIdleTime := maxIdleTime p;
      ticker := Some c |},
   closing ++ [GoTicker c (tickPeriod p)]).

(** [(p *Pool) createWorker(t)]: the result, the pool and what was started,
    when no other goroutine touches [size] in between. *)
Definition createWorker (p : Pool) : bool * Pool * list event :=
  let '(n, p1) := AddInt32 p 1 in
  if n <? maxIdle p1 then
    let '(p2, ev) := if n =? 1 then createTicker p1 else (p1, []) in
    (true, p2, ev ++ [GoWorker])
  else
    let '(_, p2) := AddInt32 p1 (-1) in
    (false, p2, []).

(** The worker started by [createWorker] leaves: the deferred
    [atomic.AddInt32(&p.size, -1)]. *)
Definition workerExit (p : Pool) : Pool := snd (AddInt32 p (-1)).

(** What a worker does with a value received from [p.tasks]: a nil is the
    noop of the tick loop and makes an idle worker leave. *)
Definition workerLeaves (p : Pool) (received_nil : bool) (now lastactive : Time) : bool :=
  received_nil && (maxIdleTime p <? now - lastactive).

(** How [RunTask] gets the task run. *)
Inductive dispatch :=
| HandOff     (* case p.tasks <- t: an idle worker took it *)
| NewWorker   (* createWorker(t) returned true *)
| Detached.   (* go t.Run() *)

(** [(p *Pool) RunTask(...)] up to the final [t.Wait()], which is [Wait_step]
    on the task: [idle] tells whether a worker is blocked receiving from
    [p.tasks], that is whether the non-blocking send succeeds. *)
Definition RunTask (idle : bool) (p : Pool) : dispatch * Pool * list event :=
  if idle then (HandOff, p, [])
  else
    let '(ok, p', ev) := createWorker p in
    if negb ok then (Detached, p', ev ++ [GoRun]) else (NewWorker, p', ev).

(** A history of a pool: submissions and departures of workers. *)
Inductive poolOp :=
| Submit (idle : bool)
| Leave.

Definition poolStep (p : Pool) (o : poolOp) : Pool :=
  match o with
  | Submit idle => snd (fst (RunTask idle p))
  | Leave => if 0 <? size p then workerExit p else p
  end.

Definition poolRun (ops : list poolOp) (p : Pool) : Pool := fold_left poolStep ops p.

(** The [n]-th call of [t.Run()]/dispatch in a history: how each submission
    of [ops] was dispatched. *)
Fixpoint dispatches (ops : list poolOp) (p : Pool) : list dispatch :=
  match ops with
  | [] => []
  | Submit idle :: rest => fst (fst (RunTask idle p)) :: dispatches rest (poolStep p (Submit idle))
  | Leave :: rest => dispatches rest (poolStep p Leave)
  end.

(** ** Notions used by the statements *)

(** The first error of a list that is not nil. *)
Fixpoint firstNonNil (es : list error) : error :=
  match es with
  | [] => nil
  | Some x :: _ => Some x
  | None :: rest => firstNonNil rest
  end.

(** The values of an int32 field. *)
Definition int32 (z : Z) : Prop := - 2 ^ 31 <= z < 2 ^ 31.

Definition isGoTicker (e : event) : bool :=
  match e with
  | GoTicker _ _ => true
  | _ => false
  end.

(** What [Run] leaves in the slot of a task made with the caller's context
    [c] and an endpoint that behaves as [o]: the error returned by the
    endpoint (nothing for nil), or the error made from its panic; nothing
    when [recover()] returns nil, and nothing when the call never ends. *)
Definition slotOf (c : context) (o : epOutcome) : error :=
  match o with
  | EpReturn e => e
  | EpPanic v st =>
      match ctxRPCInfo c with
      | Some ri => ClientPanicToErr v ri st
      | None => Errorf_panic v st
      end
  | EpPanicNil => nil
  | EpGoexit => nil
  | EpAwaitDone e => e
  | EpBlock => nil
  end.

(** [Wait] has returned [r] (its deferred [wg.Done()] may be pending). *)
Definition returned (s : state) (r : error) : Prop :=
  wpc s = WaitReturn r \/ wpc s = WaitDone r.

(** The error [r] returned by [Wait] along the schedule [acts] from [s0] was
    computed by inspecting the slot first: at some moment of the schedule
    [Wait] loads the slot, and [r] is what it finds there when the slot is
    not empty; only when it is empty is [r] the value of a later call of
    the context's [Err()]. *)
Definition slotFirst (acts : list action) (s0 : state) (r : error) : Prop :=
  exists pre post s1,
    acts = pre ++ WaitStep :: post /\ exec pre s0 = Some s1 /\ wpc s1 = WaitLoad /\
    match Load (task_err (tsk s1)) with
    | Some e => r = Some e
    | None =>
        exists mid post' s2,
          post = mid ++ WaitStep :: post' /\
          exec (pre ++ WaitStep :: mid) s0 = Some s2 /\
          wpc s2 = WaitCtxErr /\ r = Err (obj s2)
    end.

(** [Wait] is in its select statement or between the select and the load. *)
Definition atSelect (s : state) : Prop :=
  (exists timed, wpc s = WaitSelect timed) \/ (exists b, wpc s = WaitFired b) \/
  wpc s = WaitLoad.

(** The schedule in which [Run] finishes first and [Wait] then finds the
    context done. *)
Definition runThenWait : list action :=
  [RunStep; RunStep; RunStep; WaitStep; Select BrDone; WaitStep; WaitStep; WaitStep].

(** The state in which [Run] has stored [x] and cancelled with the sentinel
    while [Wait] stands at [w]. *)
Definition ranState (now : Time) (c : context) (d : Time) (o : epOutcome)
    (x : errval) (w : waitPc) : state :=
  {| clock := now;
     obj := {| Context := c; dl := d; ch := 1; err := Some errTaskDone |};
     tsk := {| ctx := true; wg := 1; ep := Some o; task_err := Some x |};
     rpc := RunRecycling; wpc := w |}.

(** *** The invariant of a task

    [Late]: the caller's context is done or the deadline has been reached.
    Both stay true once they are.  [Ran]: [Run] has made its
    [Cancel(errTaskDone)], and it was the first [Cancel] to take effect.
    [Fresh]: no [Cancel] of [Wait] has happened yet. *)
Definition Late (s : state) : Prop :=
  ctxErr (Context (obj s)) <> nil \/ (dl (obj s) <> 0 /\ dl (obj s) <= clock s).

Definition Ran (s : state) : Prop :=
  rpc s = RunRecycling /\ err (obj s) = Some errTaskDone.

Definition Fresh (s : state) : Prop :=
  (err (obj s) = nil /\ ch (obj s) = 0%nat) \/ Ran s.

(** The first [Cancel] to take effect was not the one of [Run], or the
    caller's context is done. *)
Definition NotRunFirst (s : state) : Prop :=
  (err (obj s) <> nil /\ err (obj s) <> Some errTaskDone) \/
  ctxErr (Context (obj s)) <> nil.

(** The slot along [Run]: empty until the store, then [slotOf]; and the
    call of an endpoint that never returns is never over. *)
Definition InvRun (c : context) (o : epOutcome) (s : state) : Prop :=
  match rpc s with
  | RunStart => ep (tsk s) = Some o /\ task_err (tsk s) = None
  | RunReturned e => (o = EpReturn e \/ o = EpAwaitDone e) /\ task_err (tsk s) = None
  | RunPanicking v st => o = EpPanic v st /\ task_err (tsk s) = None
  | RunDeferred => task_err (tsk s) = slotOf c o /\ o <> EpBlock
  | RunRecycling =>
      task_err (tsk s) = slotOf c o /\ err (obj s) <> nil /\ o <> EpBlock
  | RunDone => task_err (tsk s) = None /\ exists r, wpc s = WaitDone r
  | RunCrashed => False
  end.

(** What brought [Wait] to where it stands. *)
Definition InvWait (c : context) (o : epOutcome) (s : state) : Prop :=
  match wpc s with
  | WaitStart | WaitSelect false => Fresh s
  | WaitSelect true => Fresh s /\ dl (obj s) <> 0
  | WaitExpired => Late s
  | WaitEarlyErr => Late s
  | WaitFired BrDone => Ran s
  | WaitFired BrParent => Fresh s /\ ctxErr (Context (obj s)) <> nil
  | WaitFired BrTimer => Fresh s /\ dl (obj s) <> 0 /\ dl (obj s) <= clock s
  | WaitLoad => Ran s \/ (Late s /\ NotRunFirst s)
  | WaitCtxErr => (Ran s /\ slotOf c o = nil) \/ (Late s /\ NotRunFirst s)
  | WaitReturn r | WaitDone r =>
      (r = slotOf c o /\ err (obj s) = Some errTaskDone) \/ Late s
  end.

(** The WaitGroup is released by [Wait] alone. *)
Definition InvWg (s : state) : Prop :=
  wg (tsk s) = match wpc s with
               | WaitDone _ => 0%nat
               | _ => 1%nat
               end.

Definition Inv (c : context) (o : epOutcome) (s : state) : Prop :=
  ctxRPCInfo (Context (obj s)) = ctxRPCInfo c /\
  InvRun c o s /\ InvWait c o s /\ InvWg s.


(** ** Sample inputs *)

(** A caller's context whose deadline is 20 ns after the zero Time, and one
    whose deadline is the zero Time itself, as
    [context.WithDeadline(parent, time.Time{})] makes it: it is done from
    the start. *)
Definition ctxDeadline20 : context :=
  {| ctxDeadline := 20; ctxDeadlineOk := true; ctxErr := nil; ctxRPCInfo := None |}.
Definition ctxDeadlineZero : context :=
  {| ctxDeadline := 0; ctxDeadlineOk := true; ctxErr := Some DeadlineExceeded;
     ctxRPCInfo := None |}.

(** The pool of [TestWPool], [New(2, 100*time.Millisecond)], the
    same pool with its one worker running, and [New(1, 100*time.Millisecond)]. *)
Definition pool2 : Pool := New 2 (100 * Millisecond).
Definition pool2_busy : Pool := snd (fst (createWorker pool2)).
Definition pool1 : Pool := New 1 (100 * Millisecond).

(** [errors.New("ep error")] of [TestTask]. *)
Definition epError : errval := ErrorValue 1 "ep error".

(** The tasks of the tests ReturnErr and Panic of [TestTask], a task whose
    endpoint succeeds, and what [debug.Stack()] may print. *)
Definition aStack : string := "goroutine 7 [running]:".
Definition taskReturnErr : state :=
  newTask 0 Background (20 * Millisecond) (EpReturn (Some epError)).
Definition taskPanic : state :=
  newTask 0 Background (20 * Millisecond) (EpPanic "testpanic" aStack).
Definition taskOk : state :=
  newTask 0 Background (20 * Millisecond) (EpReturn nil).

(** A schedule of the test ReturnErr: [Wait] enters first, the endpoint
    sleeps 10 ms, [Run] stores the error and cancels, [Wait] wakes up. *)
Definition scheduleReturnErr : list action :=
  [WaitStep; RunStep; Tick (10 * Millisecond); RunStep; RunStep;
   Select BrDone; WaitStep; WaitStep; WaitStep; RunStep].

(** The endpoint has returned, [Run] has finished, and only 60 ms later,
    after the deadline of 50 ms, does [Wait] get to run, up to its return. *)
Definition scheduleLateWait : list action :=
  [RunStep; RunStep; RunStep; Tick (60 * Millisecond); WaitStep; WaitStep; WaitStep].

(** 30 ms pass, more than the timeout of the tasks of [TestTask], before
    [Wait] is entered; it then runs to its end. *)
Definition lateEntry : list action :=
  [Tick (30 * Millisecond); WaitStep; WaitStep; WaitStep; WaitStep].

(** The task of the test Panic with an endpoint that calls [panic(nil)],
    and the schedule, from the start of the deferred function of [Run], in
    which [Run] calls [Cancel(errTaskDone)] and [Wait] is then entered, at
    once, finds the context done and runs to its end. *)
Definition taskPanicNil : state :=
  newTask 0 Background (20 * Millisecond) EpPanicNil.
Definition cancelThenWait : list action :=
  [RunStep; WaitStep; Select BrDone; WaitStep; WaitStep; WaitStep; WaitStep].

(** ** More of the code: definitions *)

(** *** The task *)

(** [Run] has not stored anything yet; [Run] has not yet called
    [Cancel(errTaskDone)]. *)
Definition preStore (r : runPc) : bool :=
  match r with
  | RunStart | RunReturned _ | RunPanicking _ _ => true
  | _ => false
  end.

Definition preCancel (r : runPc) : bool :=
  match r with
  | RunStart | RunReturned _ | RunPanicking _ _ | RunDeferred => true
  | _ => false
  end.

Definition deadlineReached (s : state) : Prop :=
  dl (obj s) <> 0 /\ dl (obj s) <= clock s.

(** The context records a [Cancel] of [Wait]: the deadline-exceeded error
    after the deadline, or the error of the caller's context. *)
Definition WaitCancelled (s : state) : Prop :=
  (err (obj s) = Some DeadlineExceeded /\ deadlineReached s) \/
  (err (obj s) = ctxErr (Context (obj s)) /\ ctxErr (Context (obj s)) <> nil).

(** The fields of a task after [recycle]. *)
Definition cleared : task := {| ctx := false; wg := 0; ep := None; task_err := None |}.

(** A second invariant of a task: the channel is closed exactly when an
    error is recorded; the fields are cleared by [recycle] only; and what
    the context records while [Run] has not cancelled comes from [Wait]. *)
Definition InvChan (s : state) : Prop :=
  ch (obj s) = match err (obj s) with
               | Some _ => 1%nat
               | None => 0%nat
               end.

Definition InvFields (o : epOutcome) (s : state) : Prop :=
  match rpc s with
  | RunDone => tsk s = cleared
  | _ => ctx (tsk s) = true /\ ep (tsk s) = Some o
  end.

Definition InvCancel (s : state) : Prop :=
  match wpc s with
  | WaitStart | WaitSelect _ | WaitFired BrParent | WaitFired BrTimer =>
      preCancel (rpc s) = true -> err (obj s) = nil
  | WaitExpired =>
      deadlineReached s /\ (preCancel (rpc s) = true -> err (obj s) = nil)
  | WaitFired BrDone => err (obj s) <> nil /\ preCancel (rpc s) = false
  | WaitEarlyErr | WaitLoad | WaitCtxErr =>
      err (obj s) <> nil /\ (preCancel (rpc s) = true -> WaitCancelled s)
  | WaitReturn r | WaitDone r =>
      err (obj s) <> nil /\ (preCancel (rpc s) = true -> WaitCancelled s) /\
      (preStore (rpc s) = true -> r = err (obj s))
  end.

Definition Inv2 (o : epOutcome) (s : state) : Prop :=
  InvChan s /\ InvFields o s /\ InvCancel s.

(** [newTask(...)] when [poolTask.Get()] hands out the task [t]: every field
    is overwritten and the WaitGroup gets one more. *)
Definition newTaskOn (t : task) (now : Time) (c : context) (timeout : Duration)
    (e : epOutcome) : state :=
  {| clock := now;
     obj := newTaskContext now c timeout;
     tsk := {| ctx := true; wg := S (wg t); ep := Some e; task_err := None |};
     rpc := RunStart;
     wpc := WaitStart |}.

(** The call of the endpoint can end: at once for an endpoint that does not
    wait, when the channel of the task context is closed for one that waits
    for it, never for one that does not return.  [unblocked]: the call is
    over or can end. *)
Definition canEnd (o : epOutcome) (s : state) : bool :=
  match o with
  | EpAwaitDone _ => Done (obj s)
  | EpBlock => false
  | _ => true
  end.

Definition unblocked (o : epOutcome) (s : state) : Prop :=
  rpc s <> RunStart \/ canEnd o s = true.

(** The endpoint has ended without an error for [Run] to store: it returned
    nil, or it ended by a panic with nil or by [runtime.Goexit()], where
    [recover()] returns nil. *)
Definition noError (o : epOutcome) : Prop :=
  o = EpReturn nil \/ o = EpAwaitDone nil \/ o = EpPanicNil \/ o = EpGoexit.

(** A step of one of the two goroutines that needs neither the clock nor
    the caller: a step of [Run], a step of [Wait], or the case of the closed
    channel of the task context in the select. *)
Definition ownStep (a : action) : Prop :=
  a = RunStep \/ a = WaitStep \/ a = Select BrDone.

(** How far the two goroutines are from their ends. *)
Definition runRank (r : runPc) : nat :=
  match r with
  | RunStart => 4
  | RunReturned _ | RunPanicking _ _ => 3
  | RunDeferred => 2
  | RunRecycling => 1
  | RunDone | RunCrashed => 0
  end.

Definition waitRank (w : waitPc) : nat :=
  match w with
  | WaitStart => 6
  | WaitSelect _ => 5
  | WaitFired _ => 4
  | WaitLoad | WaitExpired => 3
  | WaitCtxErr | WaitEarlyErr => 2
  | WaitReturn _ => 1
  | WaitDone _ => 0
  end.

Definition rank (s : state) : nat := (runRank (rpc s) + waitRank (wpc s))%nat.

(** A scheduler that lets [Run] go up to its [Cancel], then [Wait] up to its
    return, taking the case of the closed channel in the select, and then
    [Run] again for [recycle]. *)
Definition nextAction (s : state) : action :=
  if preCancel (rpc s) then RunStep
  else match wpc s with
       | WaitDone _ => RunStep
       | WaitSelect _ => Select BrDone
       | _ => WaitStep
       end.

Fixpoint completion (n : nat) (s : state) : list action :=
  match n with
  | O => []
  | S n' =>
      match rpc s with
      | RunDone => []
      | _ =>
          match step (nextAction s) s with
          | Some s' => nextAction s :: completion n' s'
          | None => []
          end
      end
  end.

(** [Wait] on its own once the deadline is reached: in the select it takes
    the case of the timer. *)
Definition nextWait (s : state) : action :=
  match wpc s with
  | WaitSelect _ => Select BrTimer
  | _ => WaitStep
  end.

Fixpoint waitOut (n : nat) (s : state) : list action :=
  match n with
  | O => []
  | S n' =>
      match wpc s with
      | WaitDone _ => []
      | _ =>
          match step (nextWait s) s with
          | Some s' => nextWait s :: waitOut n' s'
          | None => []
          end
      end
  end.

(** The time left until the deadline, none when it has passed. *)
Definition untilDeadline (s : state) : Duration := Z.max 0 (dl (obj s) - clock s).

(** A step of [Wait] that needs no step of [Run]. *)
Definition waitOnly (a : action) : Prop := a = WaitStep \/ a = Select BrTimer.

(** [waitNoTimeout] is entered by tasks without deadline only. *)
Definition InvTimer (s : state) : Prop :=
  wpc s = WaitSelect false -> dl (obj s) = 0.

(** A task without deadline whose endpoint waits for the task context,
    while nothing has cancelled the context: the call of the endpoint has
    not ended and [Wait] is not past the select of [waitNoTimeout]. *)
Definition hung (e : error) (s : state) : Prop :=
  rpc s = RunStart /\ ep (tsk s) = Some (EpAwaitDone e) /\
  dl (obj s) = 0 /\ ch (obj s) = 0%nat /\ err (obj s) = nil /\
  (wpc s = WaitStart \/ wpc s = WaitSelect false).

(** *** The pool *)

(** What is started and closed over a history of a pool, in order. *)
Fixpoint poolEvents (ops : list poolOp) (p : Pool) : list event :=
  match ops with
  | [] => []
  | Submit idle :: rest =>
      snd (RunTask idle p) ++ poolEvents rest (poolStep p (Submit idle))
  | Leave :: rest => poolEvents rest (poolStep p Leave)
  end.

(** The ticker channels along a list of events: [cur] is the channel of the
    tick loop that has not been told to stop, [made] the channels made so
    far.  [None]: a channel is closed that is not the open one (closing a
    closed channel panics), or a tick loop is started while another has not
    been told to stop, or on a channel that is not new. *)
Fixpoint tickers (log : list event) (cur : option nat) (made : list nat)
    : option (option nat * list nat) :=
  match log with
  | [] => Some (cur, made)
  | CloseTicker c :: rest =>
      match cur with
      | Some c' => if Nat.eqb c c' then tickers rest None made else None
      | None => None
      end
  | GoTicker c _ :: rest =>
      match cur with
      | Some _ => None
      | None => if existsb (Nat.eqb c) made then None
                else tickers rest (Some c) (c :: made)
      end
  | _ :: rest => tickers rest cur made
  end.

(** Whether an event starts the execution of the submitted task. *)
Definition startsRun (e : event) : bool :=
  match e with
  | GoWorker | GoRun => true
  | _ => false
  end.

(** What a worker receives from [p.tasks]: the noop of the tick loop, with
    the time at which the worker looks at the clock, or a task, with the
    time at which its [Run] has returned. *)
Inductive received :=
| RecvNoop (now : Time)
| RecvTask (done : Time).

(** The loop [for t := range p.tasks] of a worker that was last active at
    [lastactive], on what it receives: the number of tasks it runs, the
    last time it was active, and whether it has left the loop (it is
    blocked receiving otherwise). *)
Fixpoint workerLoop (p : Pool) (lastactive : Time) (rs : list received)
    : nat * Time * bool :=
  match rs with
  | [] => (O, lastactive, false)
  | RecvNoop now :: rest =>
      if workerLeaves p true now lastactive then (O, lastactive, true)
      else workerLoop p lastactive rest
  | RecvTask done :: rest =>
      let '(n, la, gone) := workerLoop p done rest in (S n, la, gone)
  end.

Definition isTask (r : received) : bool :=
  match r with
  | RecvTask _ => true
  | RecvNoop _ => false
  end.

(** The time of the last activity after the receptions [rs]. *)
Definition lastDone (lastactive : Time) (rs : list received) : Time :=
  fold_left (fun la r => match r with
                         | RecvTask done => done
                         | RecvNoop _ => la
                         end) rs lastactive.
(** The channels made so far are those up to the one of the pool. *)
Definition madeUpTo (p : Pool) (made : list nat) : Prop :=
  forall x, In x made -> exists c, ticker p = Some c /\ (x <= c)%nat.

(** ** The protoc plugin and the environment switch

    Strings are sequences of bytes, as in Go. *)

(** [strings.Index(s, sub)]: the position of the first [sub] in [s], -1 when
    there is none. *)
Fixpoint Index (s sub : string) : Z :=
  if HasPrefix s sub then 0
  else match s with
       | EmptyString => -1
       | String _ s' => let i := Index s' sub in if i <? 0 then -1 else i + 1
       end.

Fixpoint take (n : nat) (s : string) : string :=
  match n, s with
  | S n', String c s' => String c (take n' s')
  | _, _ => EmptyString
  end.

Fixpoint drop (n : nat) (s : string) : string :=
  match n, s with
  | S n', String _ s' => drop n' s'
  | _, _ => s
  end.

(** The slices [s[i:j]], [s[i:]] and [s[:j]], for [0 <= i <= j <= len(s)]
    (Go panics outside; [parseM] stays inside). *)
Definition Slice (s : string) (i j : Z) : string :=
  take (Z.to_nat (j - i)) (drop (Z.to_nat i) s).
Definition SliceFrom (s : string) (i : Z) : string := drop (Z.to_nat i) s.
Definition SliceTo (s : string) (j : Z) : string := take (Z.to_nat j) s.

(** [map[string]string], the last value written for a key being the one
    that is read. *)
Definition importPaths := list (string * string).

Definition mapSet (k v : string) (m : importPaths) : importPaths := (k, v) :: m.

Fixpoint mapGet (k : string) (m : importPaths) : option string :=
  match m with
  | [] => None
  | (k', v) :: rest => if String.eqb k' k then Some v else mapGet k rest
  end.

(** The body of the loop of [parseM] on one option: the key and the value it
    records, or [None] where the loop continues without recording. *)
Definition parseM_entry (po : string) : option (string * string) :=
  match po with
  | EmptyString => None
  | String c _ =>
      if negb (Ascii.eqb c "M") then None
      else
        let idx := Index po "=" in
        if idx <? 0 then None
        else
          let key := Slice po 1 idx in
          let val := SliceFrom po (idx + 1) in
          if String.eqb val "" then None
          else
            let idx := Index val ";" in
            let val := if 0 <=? idx then SliceTo val idx else val in
            Some (key, val)
  end.

(** [(pp *protocPlugin) parseM()] on [pp.Config.ProtobufOptions]: the map
    [pp.importPaths] it builds. *)
Definition parseM (ProtobufOptions : list string) : importPaths :=
  fold_left (fun m po => match parseM_entry po with
                         | Some (key, val) => mapSet key val m
                         | None => m
                         end) ProtobufOptions [].

(** [generator.ServiceInfo], of which [getCombineServiceName] reads the
    name. *)
Record ServiceInfo := { ServiceName : string }.

Definition hasName (name : string) (svcs : list ServiceInfo) : bool :=
  existsb (fun svc => String.eqb (ServiceName svc) name) svcs.

(** [(pp *protocPlugin) getCombineServiceName(name, svcs)], which calls
    itself with one more underscore while a service has the name; [fuel]
    bounds the number of calls. *)
Fixpoint getCombineServiceName_fuel (fuel : nat) (name : string)
    (svcs : list ServiceInfo) : option string :=
  if hasName name svcs then
    match fuel with
    | O => None
    | S fuel' => getCombineServiceName_fuel fuel' (name ++ "_") svcs
    end
  else Some name.

Definition getCombineServiceName (name : string) (svcs : list ServiceInfo)
    : option string :=
  getCombineServiceName_fuel (List.length svcs) name svcs.

(** [n] underscores. *)
Fixpoint underscores (n : nat) : string :=
  match n with
  | O => EmptyString
  | S n' => String "_" (underscores n')
  end.

(** The services whose name is at least as long as [name]. *)
Definition longEnough (name : string) (svcs : list ServiceInfo) : list ServiceInfo :=
  filter (fun svc => (String.length name <=? String.length (ServiceName svc))%nat) svcs.

(** [strings.Trim(s, cutset)] for a cutset of one ASCII byte [c], as Go
    does it: the bytes [c] at the end are cut, then those at the start. *)
Fixpoint trimRightByte (s : string) (c : ascii) : string :=
  match s with
  | EmptyString => EmptyString
  | String d s' =>
      let t := trimRightByte s' c in
      if String.eqb t "" && Ascii.eqb d c then EmptyString else String d t
  end.

Fixpoint trimLeftByte (s : string) (c : ascii) : string :=
  match s with
  | EmptyString => EmptyString
  | String d s' => if Ascii.eqb d c then trimLeftByte s' c else s
  end.

Definition quote : ascii := ascii_of_nat 34.

(** [(pp *protocPlugin) fixImport(path)]. *)
Definition fixImport (path : string) : string :=
  trimLeftByte (trimRightByte path quote) quote.

Fixpoint allBytes (c : ascii) (s : string) : bool :=
  match s with
  | EmptyString => true
  | String d s' => Ascii.eqb d c && allBytes c s'
  end.

Definition firstIs (c : ascii) (s : string) : bool :=
  match s with
  | String d _ => Ascii.eqb d c
  | EmptyString => false
  end.

Fixpoint lastIs (c : ascii) (s : string) : bool :=
  match s with
  | EmptyString => false
  | String d EmptyString => Ascii.eqb d c
  | String _ s' => lastIs c s'
  end.

(** [strconv.ParseBool(str)]: the value and whether there is no error. *)
Definition ParseBool (str : string) : bool * bool :=
  if String.eqb str "1" || String.eqb str "t" || String.eqb str "T"
     || String.eqb str "TRUE" || String.eqb str "true" || String.eqb str "True"
  then (true, true)
  else if String.eqb str "0" || String.eqb str "f" || String.eqb str "F"
          || String.eqb str "FALSE" || String.eqb str "false" || String.eqb str "False"
  then (false, true)
  else (false, false).

(** [UseProtoc()] of package env, [v] being what
    [os.Getenv("KITEX_TOOL_USE_PROTOC")] returns: the value of the variable,
    empty when it is not set. *)
Definition UseProtoc (v : string) : bool :=
  if String.eqb v "" then true
  else fst (ParseBool v).

(** *** More sample inputs *)

(** The task of the test Timeout of [TestTask]: the endpoint waits for the
    context to be done and returns an error afterwards; and a schedule in
    which the timer of [Wait] fires after 50 ms while the endpoint has not
    returned. *)
Definition taskTimeout : state :=
  newTask 0 Background (50 * Millisecond) (EpAwaitDone (Some epError)).
Definition scheduleTimeout : list action :=
  [WaitStep; Tick (50 * Millisecond); Select BrTimer; WaitStep; WaitStep; WaitStep;
   WaitStep].

(** The task of the test Timeout with an endpoint that never returns, and a
    task without deadline, as [newTask(context.Background(), 0, ...)] makes
    it, whose endpoint waits for the task context and returns nil. *)
Definition taskBlock : state :=
  newTask 0 Background (50 * Millisecond) EpBlock.
Definition taskNoDeadline : state :=
  newTask 0 Background 0 (EpAwaitDone nil).

(** The pool of the comment of [createTicker]: 100 workers, 60 s. *)
Definition pool100 : Pool := New 100 (60 * Second).

(** What a worker of [pool2] receives: a task done at 10 ms, a noop at
    50 ms, a task done at 70 ms, and noops at 120 ms and 180 ms. *)
Definition receptions : list received :=
  [RecvTask (10 * Millisecond); RecvNoop (50 * Millisecond);
   RecvTask (70 * Millisecond); RecvNoop (120 * Millisecond);
   RecvNoop (180 * Millisecond)].

(** Two services that already have the names tried first. *)
Definition takenNames : list ServiceInfo :=
  [ {| ServiceName := "CombineService" |}; {| ServiceName := "Echo" |};
    {| ServiceName := "CombineService_" |} ].

(** Options of the protobuf compiler: two that set the import path of
    a/b.proto, others that [parseM] passes over. *)
Definition optionsOld : list string :=
  ["Ma/b.proto=old/pkg"; "paths=source_relative"]%string.
Definition optionsMixed : list string :=
  ["Ma/b.proto=example.com/pkg;alias"; "Mx="; "M"; "plugins=grpc"]%string.

(** ** Tactics *)

Ltac unfold_inv :=
  unfold Inv, InvRun, InvWait, InvWg, Fresh, Ran, Late, NotRunFirst,
         set_rpc, set_wpc, set_slot, set_tsk, set_obj, task_Cancel in *;
  simpl in *.

Ltac finish :=
  unfold_inv;
  intuition (subst; simpl in *;
             repeat match goal with
                    | H : exists _, _ |- _ => destruct H
                    end;
             try congruence; try discriminate; try lia; eauto).

Ltac unfold_inv2 :=
  unfold Inv2, InvChan, InvFields, InvCancel, WaitCancelled, deadlineReached, cleared,
         set_rpc, set_wpc, set_slot, set_tsk, set_obj, task_Cancel in *;
  simpl in *.

Ltac finish2 :=
  unfold_inv2;
  intuition (subst; simpl in *; try congruence; try discriminate; try lia; eauto).

(** * Properties *)

(** ** Equality tests *)

Lemma errval_eqb_refl (e : errval) : errval_eqb e e = true.
Proof.
  destruct e as [ | | | i m | v s | [a b] v s]; simpl; trivial;
    unfold RPCInfo_eqb; simpl;
    rewrite ?N.eqb_refl, ?String.eqb_refl; reflexivity.
Qed.

Lemma errval_eqb_errTaskDone (e : errval) :
  errval_eqb e errTaskDone = true <-> e = errTaskDone.
Proof. destruct e; simpl; split; congruence. Qed.

Lemma error_eqb_nil (e : error) : error_eqb e nil = true <-> e = nil.
Proof. destruct e; simpl; split; intro H; try reflexivity; discriminate H. Qed.

Lemma error_eqb_nil_false (e : error) : error_eqb e nil = false <-> e <> nil.
Proof.
  destruct e; simpl; split; intro H; trivial; try discriminate.
  now elim H.
Qed.

Lemma error_eqb_errTaskDone (e : error) :
  error_eqb e (Some errTaskDone) = true <-> e = Some errTaskDone.
Proof.
  destruct e as [x|]; simpl.
  - rewrite errval_eqb_errTaskDone. split; congruence.
  - split; discriminate.
Qed.

(** ** The task context *)

Lemma Cancel_nil (p : taskContext) : Cancel nil p = p.
Proof. reflexivity. Qed.

Lemma Cancel_set (e : error) (p : taskContext) (x : errval) :
  err p = Some x -> Cancel e p = p.
Proof.
  intro H. unfold Cancel. rewrite H. simpl.
  now rewrite andb_false_r.
Qed.

Lemma Cancel_first (x : errval) (p : taskContext) :
  err p = nil ->
  Cancel (Some x) p = {| Context := Context p; dl := dl p; ch := S (ch p); err := Some x |}.
Proof. intro H. unfold Cancel. now rewrite H. Qed.

Lemma Cancel_Context (e : error) (p : taskContext) : Context (Cancel e p) = Context p.
Proof. unfold Cancel. now destruct (_ && _). Qed.

Lemma Cancel_dl (e : error) (p : taskContext) : dl (Cancel e p) = dl p.
Proof. unfold Cancel. now destruct (_ && _). Qed.

Lemma Cancel_err_cases (e : error) (p : taskContext) :
  (err p = nil /\ err (Cancel e p) = e /\
     ch (Cancel e p) = (if error_eqb e nil then ch p else S (ch p)))
  \/ (err p <> nil /\ Cancel e p = p).
Proof.
  destruct (err p) as [x|] eqn:E.
  - right. split; [discriminate|]. now apply Cancel_set with x.
  - left. split; [reflexivity|]. unfold Cancel. rewrite E.
    destruct e; simpl; auto.
Qed.

Lemma CancelAll_set (es : list error) (p : taskContext) (x : errval) :
  err p = Some x -> CancelAll es p = p.
Proof.
  revert p. induction es as [|e es IH]; intros p H; simpl; trivial.
  unfold CancelAll in *. simpl. rewrite (Cancel_set e p x H). now apply IH.
Qed.

Lemma CancelAll_fresh (es : list error) (p : taskContext) :
  err p = nil ->
  err (CancelAll es p) = firstNonNil es /\
  ch (CancelAll es p) = match firstNonNil es with
                        | Some _ => S (ch p)
                        | None => ch p
                        end.
Proof.
  revert p. induction es as [|[x|] es IH]; intros p H.
  - simpl. rewrite H. auto.
  - change (CancelAll (Some x :: es) p) with (CancelAll es (Cancel (Some x) p)).
    rewrite (Cancel_first x p H).
    rewrite (CancelAll_set es _ x) by reflexivity. simpl. auto.
  - change (CancelAll (None :: es) p) with (CancelAll es (Cancel nil p)).
    rewrite Cancel_nil. simpl. now apply IH.
Qed.

Lemma CancelAll_app (es fs : list error) (p : taskContext) :
  CancelAll (es ++ fs) p = CancelAll fs (CancelAll es p).
Proof. unfold CancelAll. apply fold_left_app. Qed.

(** C4 (as amended).  The context made by [newTaskContext] has as deadline
    the earlier of the caller's deadline and [now + timeout] when the caller
    has a deadline that is not the zero Time and the timeout is not 0; the
    caller's deadline when the timeout is 0; [now + timeout] when the caller
    has no deadline or its deadline is the zero Time, which counts as none;
    and no deadline at all when neither is given.  [Deadline()] returns the
    stored [dl], with [true] exactly when [dl] is not the zero Time. *)
Theorem newTaskContext_deadline (now : Time) (c : context) (timeout : Duration) :
  let p := newTaskContext now c timeout in
  (ctxDeadlineOk c = true -> ctxDeadline c <> 0 -> timeout <> 0 ->
     dl p = Z.min (ctxDeadline c) (Add now timeout)) /\
  (ctxDeadlineOk c = true -> timeout = 0 -> dl p = ctxDeadline c) /\
  (ctxDeadlineOk c = false \/ ctxDeadline c = 0 -> timeout <> 0 ->
     dl p = Add now timeout) /\
  (ctxDeadlineOk c = false -> timeout = 0 -> dl p = 0) /\
  fst (Deadline p) = dl p /\
  (snd (Deadline p) = true <-> dl p <> 0).
Proof.
  unfold newTaskContext, Deadline, IsZero, Before, Add; simpl.
  repeat split.
  - intros Hok Hnz Ht. rewrite Hok.
    destruct (timeout =? 0) eqn:E; [apply Z.eqb_eq in E; contradiction|]. simpl.
    destruct (ctxDeadline c =? 0) eqn:Z0; [apply Z.eqb_eq in Z0; contradiction|]. simpl.
    destruct (now + timeout <? ctxDeadline c) eqn:B.
    + apply Z.ltb_lt in B. lia.
    + apply Z.ltb_ge in B. lia.
  - intros Hok Ht. rewrite Hok. subst timeout. reflexivity.
  - intros Hno Ht.
    destruct (timeout =? 0) eqn:E; [apply Z.eqb_eq in E; contradiction|]. simpl.
    destruct Hno as [Hno|Hno].
    + rewrite Hno. reflexivity.
    + rewrite Hno. destruct (ctxDeadlineOk c); reflexivity.
  - intros Hno Ht. rewrite Hno. subst timeout. reflexivity.
  - intro H. apply negb_true_iff in H. now apply Z.eqb_neq in H.
  - intro H. apply negb_true_iff. now apply Z.eqb_neq.
Qed.

Lemma newTaskContext_deadline_witness :
  dl (newTaskContext 10 ctxDeadline20 5) = Z.min 20 15 /\
  dl (newTaskContext 10 ctxDeadline20 0) = 20 /\
  dl (newTaskContext 10 Background 5) = 15 /\
  dl (newTaskContext 10 Background 0) = 0.
Proof.
  split; [|split; [|split]].
  - apply (proj1 (newTaskContext_deadline 10 ctxDeadline20 5));
      [reflexivity | discriminate | discriminate].
  - apply (proj1 (proj2 (newTaskContext_deadline 10 ctxDeadline20 0))); reflexivity.
  - apply (proj1 (proj2 (proj2 (newTaskContext_deadline 10 Background 5))));
      [left; reflexivity | discriminate].
  - apply (proj1 (proj2 (proj2 (proj2 (newTaskContext_deadline 10 Background 0)))));
      reflexivity.
Defined.

(** C4 as stated fails: the caller has a deadline (the zero Time) and the
    timeout is 1000 ns at time 10, so both exist, but the deadline of the
    task context is [now + timeout] = 1010, not the earlier of the two. *)
Lemma newTaskContext_zero_parent_deadline :
  ctxDeadlineOk ctxDeadlineZero = true /\
  dl (newTaskContext 10 ctxDeadlineZero 1000) = 1010 /\
  dl (newTaskContext 10 ctxDeadlineZero 1000)
    <> Z.min (ctxDeadline ctxDeadlineZero) (Add 10 1000).
Proof. repeat split. discriminate. Qed.

(** C5.  Whatever errors [Cancel] is called with on a new task context, the
    recorded error is the first of them that is not nil and the channel has
    been closed once if there is one and never otherwise; on a context whose
    error is set, every further [Cancel] leaves error and channel as they
    are, so calls after the first effective one change nothing. *)
Theorem Cancel_first_call_wins (now : Time) (c : context) (timeout : Duration)
    (es fs : list error) :
  let p := CancelAll es (newTaskContext now c timeout) in
  err p = firstNonNil es /\
  ch p = (if error_eqb (firstNonNil es) nil then 0%nat else 1%nat) /\
  (firstNonNil es <> nil ->
     CancelAll fs p = p /\ err (CancelAll (es ++ fs) (newTaskContext now c timeout))
                           = firstNonNil es).
Proof.
  intro p. subst p.
  destruct (CancelAll_fresh es (newTaskContext now c timeout) eq_refl) as [He Hc].
  split; [exact He|]. split.
  - rewrite Hc. now destruct (firstNonNil es).
  - intro Hne. rewrite CancelAll_app.
    destruct (firstNonNil es) as [x|] eqn:F; [|now elim Hne].
    rewrite (CancelAll_set fs _ x He). auto.
Qed.

Lemma Cancel_first_call_wins_witness :
  let es := [nil; Some Canceled; Some DeadlineExceeded] in
  let fs := [Some errTaskDone; nil; Some DeadlineExceeded] in
  let p := CancelAll es (newTaskContext 10 Background 5) in
  firstNonNil es <> nil /\ CancelAll fs p = p /\ err p = Some Canceled /\ ch p = 1%nat.
Proof.
  intros es fs p.
  pose proof (Cancel_first_call_wins 10 Background 5 es fs) as H.
  destruct H as [He [Hc Hs]].
  assert (Hne : firstNonNil es <> nil) by discriminate.
  destruct (Hs Hne) as [Hfix _].
  split; [exact Hne|]. split; [exact Hfix|]. split; [exact He | exact Hc].
Defined.

(** C6.  [Err()] returns the recorded error when it is neither nil nor the
    task-done sentinel, and the caller's [Err()] otherwise; so when [Run]
    has ended a task whose context had no error, by [Cancel(errTaskDone)],
    [Err()] is the caller's [Err()], nil for a caller that is not done. *)
Theorem Err_filters_sentinel (p : taskContext) :
  (forall x, err p = Some x -> x <> errTaskDone -> Err p = Some x) /\
  (err p = nil \/ err p = Some errTaskDone -> Err p = ctxErr (Context p)) /\
  (err p = nil ->
     Err (Cancel (Some errTaskDone) p) = ctxErr (Context p) /\
     (ctxErr (Context p) = nil -> Err (Cancel (Some errTaskDone) p) = nil)).
Proof.
  assert (H2 : forall q, err q = nil \/ err q = Some errTaskDone ->
                         Err q = ctxErr (Context q)).
  { intros q [H|H]; unfold Err; rewrite H; reflexivity. }
  split; [|split].
  - intros x H Hx. unfold Err. rewrite H. simpl.
    destruct (errval_eqb x errTaskDone) eqn:E; trivial.
    apply errval_eqb_errTaskDone in E. contradiction.
  - apply H2.
  - intro H. rewrite (Cancel_first errTaskDone p H).
    split.
    + reflexivity.
    + intro Hp. unfold Err. simpl. exact Hp.
Qed.

Lemma Err_filters_sentinel_witness :
  let p := newTaskContext 10 Background 5 in
  Err (Cancel (Some (ErrorValue 1 "ep error")) p) = Some (ErrorValue 1 "ep error") /\
  Err (Cancel (Some errTaskDone) p) = nil.
Proof.
  intro p. split.
  - apply (proj1 (Err_filters_sentinel (Cancel (Some (ErrorValue 1 "ep error")) p))
             (ErrorValue 1 "ep error")); [reflexivity | discriminate].
  - apply (proj2 (proj2 (Err_filters_sentinel p))); reflexivity.
Defined.

(** ** The pool *)

Lemma wrap32_id (z : Z) : int32 z -> wrap32 z = z.
Proof.
  unfold int32, wrap32. intro H.
  rewrite Z.mod_small; lia.
Qed.

Lemma wrap32_int32 (z : Z) : int32 (wrap32 z).
Proof.
  unfold int32, wrap32.
  pose proof (Z.mod_pos_bound (z + 2 ^ 31) (2 ^ 32) ltac:(lia)). lia.
Qed.

Lemma wrap32_pred_succ (z : Z) : int32 z -> wrap32 (wrap32 (z + 1) - 1) = z.
Proof.
  unfold int32. intro H.
  destruct (Z.eq_dec z (2 ^ 31 - 1)) as [E|E].
  - subst z. reflexivity.
  - rewrite (wrap32_id (z + 1)) by (unfold int32; lia).
    rewrite wrap32_id by (unfold int32; lia). lia.
Qed.

Lemma set_size_same (p : Pool) : set_size p (size p) = p.
Proof. now destruct p. Qed.

Lemma createWorker_reject (p : Pool) :
  int32 (size p) -> maxIdle p <= wrap32 (size p + 1) ->
  createWorker p = (false, p, []).
Proof.
  intros Hr Hn. unfold createWorker, AddInt32. simpl.
  destruct (wrap32 (size p + 1) <? maxIdle p) eqn:E.
  - apply Z.ltb_lt in E. lia.
  - unfold set_size. simpl.
    replace (wrap32 (size p + 1) + -1) with (wrap32 (size p + 1) - 1) by lia.
    rewrite (wrap32_pred_succ _ Hr). now destruct p.
Qed.

Lemma createWorker_keep (p : Pool) :
  wrap32 (size p + 1) < maxIdle p ->
  createWorker p =
    (true,
     (if wrap32 (size p + 1) =? 1
      then fst (createTicker (set_size p (wrap32 (size p + 1))))
      else set_size p (wrap32 (size p + 1))),
     (if wrap32 (size p + 1) =? 1
      then snd (createTicker (set_size p (wrap32 (size p + 1))))
      else []) ++ [GoWorker]).
Proof.
  intro Hn. unfold createWorker, AddInt32. simpl.
  apply Z.ltb_lt in Hn. rewrite Hn.
  now destruct (wrap32 (size p + 1) =? 1).
Qed.

(** C9.  [createWorker] increments [size]; when the incremented value [n] is
    below [maxIdle] it keeps the slot, returns true and starts the worker,
    and otherwise it decrements [size] back, returns false and starts
    nothing.  In the first case the tick loop is started exactly when [n] is
    1, after closing the previous ticker channel if there is one, and the
    worker is started last, after it. *)
Theorem createWorker_algorithm (p : Pool) :
  int32 (size p) ->
  let n := wrap32 (size p + 1) in
  let '(ok, p', ev) := createWorker p in
  (n < maxIdle p ->
     ok = true /\ size p' = n /\
     (n = 1 ->
        exists c, ticker p' = Some c /\
          ev = match ticker p with
               | Some c0 => [CloseTicker c0]
               | None => []
               end ++ [GoTicker c (tickPeriod p); GoWorker]) /\
     (n <> 1 -> ticker p' = ticker p /\ ev = [GoWorker])) /\
  (maxIdle p <= n -> ok = false /\ p' = p /\ ev = []) /\
  (existsb isGoTicker ev = true <-> n < maxIdle p /\ n = 1).
Proof.
  intros Hr n.
  destruct (Z.lt_ge_cases n (maxIdle p)) as [Hlt|Hge].
  - rewrite (createWorker_keep p Hlt). fold n.
    destruct (n =? 1) eqn:E1.
    + apply Z.eqb_eq in E1. unfold createTicker. simpl.
      split; [|split].
      * intros _. split; [reflexivity|]. split; [reflexivity|]. split.
        -- intros _. eexists. split; [reflexivity|].
           rewrite <- app_assoc. reflexivity.
        -- intro Hne. contradiction.
      * intro H. lia.
      * split; [auto|]. intros _.
        rewrite !existsb_app. simpl. now rewrite orb_true_r.
    + apply Z.eqb_neq in E1. simpl.
      split; [|split].
      * intros _. split; [reflexivity|]. split; [reflexivity|]. split.
        -- intro H. contradiction.
        -- auto.
      * intro H. lia.
      * split; [discriminate|]. intros [_ H]. contradiction.
  - rewrite (createWorker_reject p Hr Hge).
    split; [|split].
    + intro H. lia.
    + auto.
    + simpl. split; [discriminate|]. intros [H _]. lia.
Qed.

Lemma createWorker_algorithm_witness :
  createWorker pool2 = (true, pool2_busy, [GoTicker 0 (10 * Millisecond); GoWorker]) /\
  size pool2_busy = 1 /\
  createWorker pool2_busy = (false, pool2_busy, []).
Proof.
  assert (H0 : int32 (size pool2)) by (unfold int32; simpl; lia).
  assert (E1 : size pool2_busy = 1) by (vm_compute; reflexivity).
  assert (H1 : int32 (size pool2_busy)) by (rewrite E1; unfold int32; lia).
  pose proof (createWorker_algorithm pool2_busy H1) as B.
  split; [reflexivity|]. split; [reflexivity|].
  destruct (createWorker pool2_busy) as [[ok p'] ev].
  destruct B as [_ [B _]].
  destruct B as [Bok [Bp Bev]]; [vm_compute; discriminate|].
  now subst.
Defined.

(** C2 as stated fails: the pool [New(1, ...)] has no worker, so its worker
    count 0 is strictly below [maxIdle] = 1, and yet [createWorker] makes no
    worker; the same holds for [New(2, ...)] with one worker. *)
Lemma createWorker_below_maxIdle_rejects :
  ~ (forall p : Pool, int32 (size p) -> 0 <= size p < maxIdle p ->
       fst (fst (createWorker p)) = true).
Proof.
  intro H.
  assert (C : fst (fst (createWorker pool1)) = true).
  { apply H; change (size pool1) with 0; change (maxIdle pool1) with 1;
      unfold int32; lia. }
  discriminate C.
Qed.

Lemma poolStep_size_bound (p : Pool) (o : poolOp) :
  0 <= size p <= Z.max 0 (maxIdle p - 1) -> int32 (maxIdle p) ->
  maxIdle (poolStep p o) = maxIdle p /\
  0 <= size (poolStep p o) <= Z.max 0 (maxIdle p - 1).
Proof.
  intros Hs Hm.
  assert (Hr : int32 (size p)) by (unfold int32 in *; lia).
  destruct o as [idle|]; simpl.
  - unfold RunTask. destruct idle; simpl; [auto|].
    destruct (Z.lt_ge_cases (wrap32 (size p + 1)) (maxIdle p)) as [Hlt|Hge].
    + rewrite (createWorker_keep p Hlt). simpl.
      rewrite wrap32_id in * by (unfold int32 in *; lia).
      destruct (size p + 1 =? 1); simpl; split; trivial; lia.
    + rewrite (createWorker_reject p Hr Hge). simpl. auto.
  - destruct (0 <? size p) eqn:E; [|auto].
    apply Z.ltb_lt in E. unfold workerExit, AddInt32. simpl.
    rewrite wrap32_id by (unfold int32 in *; lia).
    split; trivial; lia.
Qed.

Lemma poolRun_size_bound (ops : list poolOp) (p : Pool) :
  0 <= size p <= Z.max 0 (maxIdle p - 1) -> int32 (maxIdle p) ->
  maxIdle (poolRun ops p) = maxIdle p /\
  0 <= size (poolRun ops p) <= Z.max 0 (maxIdle p - 1).
Proof.
  revert p. induction ops as [|o ops IH]; intros p Hs Hm; [simpl; auto|].
  change (poolRun (o :: ops) p) with (poolRun ops (poolStep p o)).
  destruct (poolStep_size_bound p o Hs Hm) as [Hm' Hs'].
  rewrite <- Hm' in Hs', Hm.
  destruct (IH _ Hs' Hm) as [A B].
  rewrite Hm' in *. auto.
Qed.

Lemma dispatches_maxIdle1 (ops : list poolOp) (p : Pool) :
  maxIdle p = 1 -> size p = 0 ->
  Forall (fun d => d <> NewWorker) (dispatches ops p).
Proof.
  revert p. induction ops as [|o ops IH]; intros p Hm Hs; [constructor|].
  assert (Hrej : createWorker p = (false, p, [])).
  { apply createWorker_reject; rewrite Hs; [unfold int32; lia|].
    rewrite Hm. vm_compute. discriminate. }
  destruct o as [idle|]; simpl.
  - unfold RunTask. rewrite Hrej. destruct idle; simpl.
    + constructor; [discriminate|]. now apply IH.
    + constructor; [discriminate|]. now apply IH.
  - rewrite Hs. simpl. now apply IH.
Qed.

(** C2 (as amended).  A submission that misses the hand-off creates a new
    worker exactly when the worker count after the increment, [size + 1], is
    strictly below [maxIdle]; so over any history of submissions and
    departures a pool made by [New] has at most [maxIdle - 1] workers; and
    with [maxIdle] = 1 no submission ever creates a worker: each one that
    misses the hand-off is run by a detached [go t.Run()]. *)
Theorem createWorker_cap (m : Z) (d : Duration) (ops : list poolOp) :
  int32 m ->
  let p := poolRun ops (New m d) in
  (fst (fst (createWorker p)) = true <-> size p + 1 < maxIdle p) /\
  0 <= size p <= Z.max 0 (m - 1) /\
  (m = 1 -> size p = 0 /\ fst (fst (RunTask false p)) = Detached /\
            Forall (fun x => x <> NewWorker) (dispatches ops (New m d))).
Proof.
  intros Hm p.
  assert (Hnew : maxIdle (New m d) = m) by (simpl; now apply wrap32_id).
  assert (H0 : 0 <= size (New m d) <= Z.max 0 (maxIdle (New m d) - 1))
    by (simpl; lia).
  assert (Hm' : int32 (maxIdle (New m d))) by now rewrite Hnew.
  destruct (poolRun_size_bound ops (New m d) H0 Hm') as [Hmax Hsz].
  fold p in Hmax, Hsz. rewrite Hnew in *.
  assert (Hr : int32 (size p)) by (unfold int32 in *; lia).
  assert (Hw : wrap32 (size p + 1) = size p + 1)
    by (apply wrap32_id; unfold int32 in *; lia).
  split; [|split].
  - destruct (Z.lt_ge_cases (wrap32 (size p + 1)) (maxIdle p)) as [Hlt|Hge].
    + rewrite (createWorker_keep p Hlt). simpl. split; [lia | reflexivity].
    + rewrite (createWorker_reject p Hr Hge). simpl. split; [discriminate | lia].
  - exact Hsz.
  - intro H1.
    assert (Hs : size p = 0) by lia.
    split; [exact Hs|]. split.
    + unfold RunTask. rewrite (createWorker_reject p Hr) by lia. reflexivity.
    + apply dispatches_maxIdle1; [rewrite Hnew; exact H1 | reflexivity].
Qed.

Lemma createWorker_cap_witness :
  let p := poolRun [Submit false; Submit false; Leave; Submit true] (New 1 Second) in
  size p = 0 /\ fst (fst (RunTask false p)) = Detached.
Proof.
  intro p.
  assert (Hm : int32 1) by (unfold int32; lia).
  destruct (createWorker_cap 1 Second
              [Submit false; Submit false; Leave; Submit true] Hm) as [_ [_ H]].
  destruct (H eq_refl) as [Hs [Hd _]].
  split; [exact Hs | exact Hd].
Defined.

(** ** The task: invariant and schedules *)

Lemma Inv_newTask now c timeout o : Inv c o (newTask now c timeout o).
Proof.
  unfold Inv, InvRun, InvWait, InvWg, Fresh; simpl. repeat split; auto.
Qed.

Lemma step_Tick_Inv c o s s' d : Inv c o s -> step (Tick d) s = Some s' -> Inv c o s'.
Proof.
  unfold step. destruct (0 <=? d) eqn:E; [|discriminate].
  apply Z.leb_le in E. intros HI H. injection H as <-.
  destruct s as [clk ob tk rp wp].
  destruct wp as [ | | | [|] | [| |] | | | r | r]; finish.
Qed.

Lemma step_ParentDone_Inv c o s s' e :
  Inv c o s -> step (ParentDone e) s = Some s' -> Inv c o s'.
Proof.
  unfold step. intros HI H.
  destruct s as [clk [cx d n er] tk rp wp]. simpl in H.
  destruct (ctxErr cx) eqn:E; [discriminate|]. injection H as <-.
  destruct wp as [ | | | [|] | [| |] | | | r | r]; finish.
Qed.

Lemma step_Run_Inv c o s s' : Inv c o s -> Run_step s = Some s' -> Inv c o s'.
Proof.
  intros HI H.
  destruct s as [clk [cx d n er] [tcx w e sl] rp wp].
  unfold Run_step in H; simpl in H.
  destruct rp as [ | e0 | v st | | | | ].
  - assert (He : e = Some o) by (unfold_inv; tauto). subst e.
    destruct o as [e0|v st| | |e0| ]; try discriminate;
      try (destruct (Done _) eqn:Dn; [|discriminate]);
      injection H as <-;
      destruct wp as [ | | | [|] | [| |] | | | r | r]; finish.
  - destruct e0 as [x|]; simpl in H; injection H as <-;
      destruct wp as [ | | | [|] | [| |] | | | r | r]; finish.
  - unfold GetRPCInfo in H. simpl in H.
    assert (Hc : ctxRPCInfo cx = ctxRPCInfo c) by (unfold_inv; tauto).
    rewrite Hc in H.
    destruct (ctxRPCInfo c) as [ri|] eqn:R; simpl in H; injection H as <-;
      destruct wp as [ | | | [|] | [| |] | | | r | r];
      unfold_inv; unfold slotOf;
      intuition (subst; try rewrite R; simpl in *; try congruence; eauto).
  - injection H as <-. unfold Cancel; simpl.
    destruct er as [x|]; simpl;
      destruct wp as [ | | | [|] | [| |] | | | r | r]; finish.
  - destruct w; [|discriminate]. injection H as <-.
    destruct wp as [ | | | [|] | [| |] | | | r | r]; finish; eauto.
  - discriminate.
  - discriminate.
Qed.

Lemma step_Select_Inv c o s s' b : Inv c o s -> Select_step b s = Some s' -> Inv c o s'.
Proof.
  intros HI H.
  destruct s as [clk [cx d n er] tk rp wp].
  unfold Select_step in H; simpl in H.
  destruct wp as [ | | | timed | | | | | ]; try discriminate.
  destruct (ready timed b _) eqn:R; [|discriminate]. injection H as <-.
  unfold ready, Done in R; simpl in R.
  destruct b.
  - apply Nat.ltb_lt in R. destruct timed, rp; finish.
  - apply negb_true_iff, error_eqb_nil_false in R. destruct timed, rp; finish.
  - apply andb_true_iff in R. destruct R as [Rt Rd]. subst timed.
    apply Z.leb_le in Rd. destruct rp; finish.
Qed.

Lemma step_Wait_Inv c o s s' : Inv c o s -> Wait_step s = Some s' -> Inv c o s'.
Proof.
  intros HI H.
  destruct s as [clk [cx d n er] [tcx w e sl] rp wp].
  unfold Wait_step in H; simpl in H.
  destruct wp as [ | | | timed | [| |] | | | r | r].
  - unfold IsZero, Until in H.
    destruct (d =? 0) eqn:Z0; simpl in H.
    + injection H as <-. destruct rp; finish.
    + apply Z.eqb_neq in Z0.
      destruct (d - clk <? 0) eqn:L; injection H as <-.
      * apply Z.ltb_lt in L. destruct rp; finish.
      * destruct rp; finish.
  - injection H as <-. unfold Cancel; simpl.
    destruct er; simpl; destruct rp; finish.
  - injection H as <-. destruct rp; finish.
  - discriminate.
  - injection H as <-. destruct rp; finish.
  - injection H as <-. unfold Cancel; simpl.
    destruct (ctxErr cx), er; simpl; destruct rp; finish.
  - injection H as <-. unfold Cancel; simpl.
    destruct er; simpl; destruct rp; finish.
  - unfold Load in H. destruct sl as [v|]; injection H as <-; destruct rp; finish.
  - injection H as <-. unfold Err; simpl.
    destruct er as [[| | | | |]|]; simpl; destruct rp; finish;
      destruct (ctxErr cx); auto; right; left; discriminate.
  - injection H as <-. destruct rp; finish.
  - discriminate.
Qed.

Lemma step_Inv c o a s s' : Inv c o s -> step a s = Some s' -> Inv c o s'.
Proof.
  destruct a; simpl.
  - apply step_Tick_Inv.
  - apply step_ParentDone_Inv.
  - apply step_Run_Inv.
  - apply step_Wait_Inv.
  - apply step_Select_Inv.
Qed.

Lemma exec_Inv c o acts : forall s s', Inv c o s -> exec acts s = Some s' -> Inv c o s'.
Proof.
  induction acts as [|a acts IH]; simpl; intros s s' HI H.
  - now injection H as <-.
  - destruct (step a s) as [s1|] eqn:E; [|discriminate].
    apply (IH s1); [|exact H]. now apply step_Inv with a s.
Qed.

(** *** Messages *)

Lemma HasPrefix_app (v b : string) : HasPrefix (v ++ b) v = true.
Proof.
  induction v as [|ch v IH]; simpl; [now destruct b|].
  now rewrite Ascii.eqb_refl, IH.
Qed.

Lemma Contains_prefix (s sub : string) : HasPrefix s sub = true -> Contains s sub = true.
Proof. intro H. destruct s; simpl in *; rewrite H; reflexivity. Qed.

Lemma Contains_app_r (a s sub : string) :
  Contains s sub = true -> Contains (a ++ s) sub = true.
Proof.
  intro H. induction a as [|ch a IH]; simpl; [exact H|].
  rewrite IH. apply orb_true_r.
Qed.

Lemma Contains_middle (a v b : string) : Contains (a ++ v ++ b) v = true.
Proof. apply Contains_app_r, Contains_prefix, HasPrefix_app. Qed.

Lemma slotOf_panic c v st :
  exists e, slotOf c (EpPanic v st) = Some e /\ Contains (Error e) v = true.
Proof.
  unfold slotOf, ClientPanicToErr, Errorf_panic.
  destruct (ctxRPCInfo c) as [ri|]; eexists; (split; [reflexivity|]).
  - unfold Error.
    repeat (apply Contains_middle || apply Contains_app_r).
  - unfold Error. apply Contains_middle.
Qed.

Lemma Inv_result c o s r :
  Inv c o s -> wpc s = WaitReturn r \/ wpc s = WaitDone r ->
  ctxErr (Context (obj s)) = nil ->
  dl (obj s) = 0 \/ clock s < dl (obj s) ->
  r = slotOf c o /\ Err (obj s) = nil.
Proof.
  intros (_ & _ & HW & _) Hw Hp Hd.
  unfold InvWait, Late in HW.
  assert (H : r = slotOf c o /\ err (obj s) = Some errTaskDone).
  { destruct Hw as [Hw|Hw]; rewrite Hw in HW;
      (destruct HW as [HW|[HW|[HW1 HW2]]]; [exact HW | contradiction | lia]). }
  destruct H as [Hr He]. split; [exact Hr|].
  unfold Err. rewrite He. simpl. exact Hp.
Qed.

Lemma exec_app (l1 l2 : list action) (s : state) :
  exec (l1 ++ l2) s = match exec l1 s with
                      | Some s' => exec l2 s'
                      | None => None
                      end.
Proof.
  revert s. induction l1 as [|a l1 IH]; intro s; simpl; [reflexivity|].
  destruct (step a s); [apply IH | reflexivity].
Qed.

Lemma Run_first now c timeout o x :
  (forall e, o <> EpAwaitDone e) ->
  slotOf c o = Some x ->
  exec [RunStep; RunStep; RunStep] (newTask now c timeout o)
  = Some (ranState now c (dl (newTaskContext now c timeout)) o x WaitStart).
Proof.
  intros Hn Hx. unfold newTask, ranState.
  destruct o as [[e|]|v st| | |e| ]; simpl in Hx; try discriminate.
  - injection Hx as ->. reflexivity.
  - destruct (ctxRPCInfo c) as [ri|] eqn:R; injection Hx as <-;
      unfold exec, step, Run_step, GetRPCInfo; simpl; rewrite R; reflexivity.
  - now elim (Hn e).
Qed.

Lemma Wait_enters now c d o x :
  d = 0 \/ now <= d ->
  Wait_step (ranState now c d o x WaitStart)
  = Some (ranState now c d o x (WaitSelect (negb (d =? 0)))).
Proof.
  intro Hd. unfold Wait_step, ranState, Deadline, IsZero, Until, set_wpc.
  cbn [wpc obj dl fst snd clock tsk rpc].
  destruct (d =? 0) eqn:Z0; cbn [negb]; [reflexivity|].
  apply Z.eqb_neq in Z0.
  destruct (d - now <? 0) eqn:L; [|reflexivity].
  apply Z.ltb_lt in L. lia.
Qed.

Lemma Wait_finds_done now c d o x timed :
  exec [Select BrDone; WaitStep; WaitStep; WaitStep] (ranState now c d o x (WaitSelect timed))
  = Some {| clock := now;
            obj := {| Context := c; dl := d; ch := 1; err := Some errTaskDone |};
            tsk := {| ctx := true; wg := 0; ep := Some o; task_err := Some x |};
            rpc := RunRecycling; wpc := WaitDone (Some x) |}.
Proof. reflexivity. Qed.

Lemma runThenWait_returns now c timeout o x :
  (forall e, o <> EpAwaitDone e) ->
  slotOf c o = Some x ->
  dl (newTaskContext now c timeout) = 0 \/ now <= dl (newTaskContext now c timeout) ->
  exists s, exec runThenWait (newTask now c timeout o) = Some s /\
            wpc s = WaitDone (Some x) /\ Err (obj s) = ctxErr c /\
            clock s = now.
Proof.
  intros Hn Hx Hd.
  change runThenWait
    with ([RunStep; RunStep; RunStep]
            ++ [WaitStep] ++ [Select BrDone; WaitStep; WaitStep; WaitStep]).
  rewrite exec_app, (Run_first now c timeout o x Hn Hx).
  rewrite exec_app.
  change (exec [WaitStep] ?s) with (match Wait_step s with Some s' => Some s' | None => None end).
  cbv beta.
  rewrite (Wait_enters now c _ o x Hd).
  rewrite Wait_finds_done.
  eexists. split; [reflexivity|]. simpl. auto.
Qed.

Lemma Run_step_wpc s s' : Run_step s = Some s' -> wpc s' = wpc s.
Proof.
  unfold Run_step. intro H.
  destruct (rpc s) as [ | e | v st | | | | ].
  - destruct (ep (tsk s)) as [[e|v st| | |e| ]|]; try discriminate;
      try (destruct (Done (obj s)); [|discriminate]); now injection H as <-.
  - destruct (negb (error_eqb e nil)); [|now injection H as <-].
    destruct (Store e (task_err (tsk s))); now injection H as <-.
  - destruct (Store _ (task_err (tsk s))); now injection H as <-.
  - now injection H as <-.
  - destruct (wg (tsk s)); [|discriminate]. now injection H as <-.
  - discriminate.
  - discriminate.
Qed.

Lemma env_step_wpc a s s' :
  step a s = Some s' -> a <> WaitStep -> (forall b, a <> Select b) -> wpc s' = wpc s.
Proof.
  intros H Hw Hs. destruct a as [d|e| | |b]; simpl in H.
  - destruct (0 <=? d); [|discriminate]. now injection H as <-.
  - destruct (ctxErr (Context (obj s))); [discriminate|]. now injection H as <-.
  - now apply Run_step_wpc.
  - now elim Hw.
  - now elim (Hs b).
Qed.

Lemma Select_step_wpc b s s' :
  Select_step b s = Some s' ->
  exists timed, wpc s = WaitSelect timed /\ ready timed b s = true /\
                s' = set_wpc s (WaitFired b).
Proof.
  unfold Select_step. intro H.
  destruct (wpc s) as [ | | | timed | | | | | ]; try discriminate.
  exists timed. destruct (ready timed b s); [|discriminate].
  injection H as <-. auto.
Qed.

Lemma action_cases (a : action) :
  a = WaitStep \/ (exists b, a = Select b) \/
  (a <> WaitStep /\ forall b, a <> Select b).
Proof.
  destruct a; try (right; right; split; [discriminate | intro; discriminate]).
  - now left.
  - right. left. eauto.
Qed.

Lemma returned_stable (r0 : error) (acts : list action) :
  forall s0 s, returned s0 r0 -> exec acts s0 = Some s -> returned s r0.
Proof.
  induction acts as [|a acts IH]; simpl; intros s0 s H0 H.
  - now injection H as <-.
  - destruct (step a s0) as [s1|] eqn:E; [|discriminate].
    apply (IH s1 s); [|exact H]. clear IH H.
    destruct (action_cases a) as [->|[[b ->]|[Hw Hs]]].
    + simpl in E. unfold Wait_step in E.
      destruct H0 as [H0|H0]; rewrite H0 in E; [|discriminate].
      injection E as <-. now right.
    + simpl in E. apply Select_step_wpc in E. destruct E as (t & E & _).
      destruct H0 as [H0|H0]; congruence.
    + unfold returned. now rewrite (env_step_wpc a s0 s1 E Hw Hs).
Qed.

Lemma returned_inj s r r' : returned s r -> returned s r' -> r = r'.
Proof. unfold returned. intros [H|H] [H'|H']; congruence. Qed.

Lemma from_WaitCtxErr (acts : list action) :
  forall s0 s r,
    wpc s0 = WaitCtxErr -> exec acts s0 = Some s -> returned s r ->
    exists mid post s2,
      acts = mid ++ WaitStep :: post /\ exec mid s0 = Some s2 /\
      wpc s2 = WaitCtxErr /\ r = Err (obj s2).
Proof.
  induction acts as [|a acts IH]; simpl; intros s0 s r H0 H Hr.
  - injection H as <-. destruct Hr; congruence.
  - destruct (step a s0) as [s1|] eqn:E; [|discriminate].
    destruct (action_cases a) as [->|[[b ->]|[Hw Hs]]].
    + exists [], acts, s0. simpl. repeat split; trivial.
      simpl in E. unfold Wait_step in E. rewrite H0 in E. injection E as <-.
      apply (returned_inj s); [exact Hr|].
      apply (returned_stable _ acts (set_wpc s0 (WaitReturn (Err (obj s0))))); trivial.
      now left.
    + simpl in E. apply Select_step_wpc in E. destruct E as (t & E & _). congruence.
    + assert (H1 : wpc s1 = WaitCtxErr) by (rewrite (env_step_wpc a s0 s1 E Hw Hs); exact H0).
      destruct (IH s1 s r H1 H Hr) as (mid & post & s2 & A & B & C & D).
      exists (a :: mid), post, s2. simpl. rewrite E.
      repeat split; trivial. now rewrite A.
Qed.

Lemma slotFirst_cons a acts s0 s1 r :
  step a s0 = Some s1 -> slotFirst acts s1 r -> slotFirst (a :: acts) s0 r.
Proof.
  intros E (pre & post & s2 & A & B & C & D).
  exists (a :: pre), post, s2.
  split; [now rewrite A|]. split; [simpl; now rewrite E|]. split; [exact C|].
  destruct (Load (task_err (tsk s2))); [exact D|].
  destruct D as (mid & post' & s3 & D1 & D2 & D3 & D4).
  exists mid, post', s3.
  split; [exact D1|]. split; [simpl; now rewrite E|]. auto.
Qed.

Lemma from_select (acts : list action) :
  forall s0 s r,
    atSelect s0 -> exec acts s0 = Some s -> returned s r -> slotFirst acts s0 r.
Proof.
  induction acts as [|a acts IH]; simpl; intros s0 s r H0 H Hr.
  - injection H as <-.
    destruct H0 as [[t H0]|[[b H0]|H0]]; destruct Hr; congruence.
  - destruct (step a s0) as [s1|] eqn:E; [|discriminate].
    destruct (action_cases a) as [->|[[b ->]|[Hw Hs]]].
    + simpl in E. unfold Wait_step in E.
      destruct H0 as [[t H0]|[[b H0]|H0]]; rewrite H0 in E.
      * discriminate.
      * apply (slotFirst_cons WaitStep acts s0 s1 r);
          [simpl; unfold Wait_step; now rewrite H0|].
        apply (IH s1 s r); trivial.
        right. right. destruct b; injection E as <-; reflexivity.
      * exists [], acts, s0.
        split; [reflexivity|]. split; [reflexivity|]. split; [exact H0|].
        destruct (Load (task_err (tsk s0))) as [e|] eqn:L.
        -- injection E as <-.
           apply (returned_inj s); [exact Hr|].
           apply (returned_stable _ acts (set_wpc s0 (WaitReturn (Some e)))); trivial.
           now left.
        -- injection E as <-.
           destruct (from_WaitCtxErr acts (set_wpc s0 WaitCtxErr) s r eq_refl H Hr)
             as (mid & post' & s2 & A & B & C & D).
           exists mid, post', s2.
           split; [exact A|]. split; [|auto].
           simpl. unfold Wait_step. rewrite H0, L. exact B.
    + simpl in E. apply Select_step_wpc in E. destruct E as (t & E1 & E2 & ->).
      apply (slotFirst_cons (Select b) acts s0 (set_wpc s0 (WaitFired b)) r).
      * simpl. unfold Select_step. now rewrite E1, E2.
      * apply (IH _ s r); trivial. right. left. now exists b.
    + apply (slotFirst_cons a acts s0 s1 r E).
      apply (IH s1 s r); trivial.
      unfold atSelect. now rewrite (env_step_wpc a s0 s1 E Hw Hs).
Qed.

Lemma Wait_step_entry (s : state) :
  wpc s = WaitStart ->
  Wait_step s =
    Some (set_wpc s (if dl (obj s) =? 0 then WaitSelect false
                     else if dl (obj s) <? clock s then WaitExpired
                          else WaitSelect true)).
Proof.
  intro H. unfold Wait_step, Deadline, IsZero, Until. rewrite H.
  destruct (dl (obj s) =? 0); simpl; [reflexivity|].
  destruct (dl (obj s) - clock s <? 0) eqn:L, (dl (obj s) <? clock s) eqn:L';
    trivial.
  - apply Z.ltb_lt in L. apply Z.ltb_ge in L'. lia.
  - apply Z.ltb_ge in L. apply Z.ltb_lt in L'. lia.
Qed.

Lemma Cancel_keeps (e : error) (p : taskContext) (x : errval) :
  err p = Some x -> err (Cancel e p) = Some x.
Proof. intro H. now rewrite (Cancel_set e p x H). Qed.

Lemma Run_step_err s s' x :
  Run_step s = Some s' -> err (obj s) = Some x -> err (obj s') = Some x.
Proof.
  unfold Run_step. intros H Hx.
  destruct (rpc s) as [ | e | v st | | | | ].
  - destruct (ep (tsk s)) as [[e|v st| | |e| ]|]; try discriminate;
      try (destruct (Done (obj s)); [|discriminate]); now injection H as <-.
  - destruct (negb (error_eqb e nil)); [|now injection H as <-].
    destruct (Store e (task_err (tsk s))); now injection H as <-.
  - destruct (Store _ (task_err (tsk s))); now injection H as <-.
  - injection H as <-. simpl. now apply Cancel_keeps.
  - destruct (wg (tsk s)); [|discriminate]. now injection H as <-.
  - discriminate.
  - discriminate.
Qed.

Lemma Wait_entry_atSelect (s0 s1 : state) :
  wpc s0 = WaitStart -> dl (obj s0) = 0 \/ clock s0 <= dl (obj s0) ->
  Wait_step s0 = Some s1 -> atSelect s1.
Proof.
  intros H0 Hd E.
  rewrite (Wait_step_entry s0 H0) in E. injection E as <-.
  left.
  destruct (dl (obj s0) =? 0) eqn:Z0; [now exists false|].
  destruct (dl (obj s0) <? clock s0) eqn:L; [|now exists true].
  apply Z.eqb_neq in Z0. apply Z.ltb_lt in L. lia.
Qed.

(** X17.  When [Wait] is entered before the deadline has passed, or the task
    has no deadline, then on every schedule that makes it return, through
    [waitNoTimeout] or through the select with the timer, whichever case of
    the select is taken, the returned error was computed by inspecting the
    slot first, and is the context's [Err()] only when the slot was found
    empty. *)
Theorem Wait_inspects_slot_first (s0 : state) (acts : list action) (s : state)
    (r : error) :
  wpc s0 = WaitStart ->
  dl (obj s0) = 0 \/ clock s0 <= dl (obj s0) ->
  exec (WaitStep :: acts) s0 = Some s ->
  wpc s = WaitReturn r \/ wpc s = WaitDone r ->
  slotFirst (WaitStep :: acts) s0 r.
Proof.
  intros H0 Hd Hex Hr.
  simpl in Hex. destruct (Wait_step s0) as [s1|] eqn:E; [|discriminate].
  apply (slotFirst_cons WaitStep acts s0 s1 r E).
  apply (from_select acts s1 s r); trivial.
  now apply (Wait_entry_atSelect s0 s1).
Qed.

(** *** What is recorded stays *)

Lemma Wait_step_err s s' x :
  Wait_step s = Some s' -> err (obj s) = Some x -> err (obj s') = Some x.
Proof.
  intros H Hx. destruct (wpc s) as [ | | | t | [| |] | | | r | r] eqn:W.
  - rewrite (Wait_step_entry s W) in H. now injection H as <-.
  - unfold Wait_step in H. rewrite W in H. injection H as <-.
    simpl. now apply Cancel_keeps.
  - unfold Wait_step in H. rewrite W in H. now injection H as <-.
  - unfold Wait_step in H. rewrite W in H. discriminate.
  - unfold Wait_step in H. rewrite W in H. now injection H as <-.
  - unfold Wait_step in H. rewrite W in H. injection H as <-.
    simpl. now apply Cancel_keeps.
  - unfold Wait_step in H. rewrite W in H. injection H as <-.
    simpl. now apply Cancel_keeps.
  - unfold Wait_step in H. rewrite W in H.
    destruct (Load (task_err (tsk s))); now injection H as <-.
  - unfold Wait_step in H. rewrite W in H. now injection H as <-.
  - unfold Wait_step in H. rewrite W in H. now injection H as <-.
  - unfold Wait_step in H. rewrite W in H. discriminate.
Qed.

Lemma step_err a s s' x :
  step a s = Some s' -> err (obj s) = Some x -> err (obj s') = Some x.
Proof.
  intros E Hx. destruct a as [d|e| | |b]; simpl in E.
  - destruct (0 <=? d); [|discriminate]. now injection E as <-.
  - destruct (ctxErr (Context (obj s))); [discriminate|]. now injection E as <-.
  - now apply (Run_step_err s s').
  - now apply (Wait_step_err s s').
  - apply Select_step_wpc in E. destruct E as (t & _ & _ & ->). exact Hx.
Qed.

Lemma exec_err acts :
  forall s s' x, exec acts s = Some s' -> err (obj s) = Some x -> err (obj s') = Some x.
Proof.
  induction acts as [|a acts IH]; simpl; intros s s' x H Hx.
  - now injection H as <-.
  - destruct (step a s) as [s1|] eqn:E; [|discriminate].
    apply (IH s1 s' x H). now apply (step_err a s s1).
Qed.

Lemma Run_step_Context s s' : Run_step s = Some s' -> Context (obj s') = Context (obj s).
Proof.
  unfold Run_step. intro H.
  destruct (rpc s) as [ | e | v st | | | | ].
  - destruct (ep (tsk s)) as [[e|v st| | |e| ]|]; try discriminate;
      try (destruct (Done (obj s)); [|discriminate]); now injection H as <-.
  - destruct (negb (error_eqb e nil)); [|now injection H as <-].
    destruct (Store e (task_err (tsk s))); now injection H as <-.
  - destruct (Store _ (task_err (tsk s))); now injection H as <-.
  - injection H as <-. simpl. apply Cancel_Context.
  - destruct (wg (tsk s)); [|discriminate]. now injection H as <-.
  - discriminate.
  - discriminate.
Qed.

Lemma Wait_step_Context s s' : Wait_step s = Some s' -> Context (obj s') = Context (obj s).
Proof.
  intro H. destruct (wpc s) as [ | | | t | [| |] | | | r | r] eqn:W.
  - rewrite (Wait_step_entry s W) in H. now injection H as <-.
  - unfold Wait_step in H. rewrite W in H. injection H as <-.
    simpl. apply Cancel_Context.
  - unfold Wait_step in H. rewrite W in H. now injection H as <-.
  - unfold Wait_step in H. rewrite W in H. discriminate.
  - unfold Wait_step in H. rewrite W in H. now injection H as <-.
  - unfold Wait_step in H. rewrite W in H. injection H as <-.
    simpl. apply Cancel_Context.
  - unfold Wait_step in H. rewrite W in H. injection H as <-.
    simpl. apply Cancel_Context.
  - unfold Wait_step in H. rewrite W in H.
    destruct (Load (task_err (tsk s))); now injection H as <-.
  - unfold Wait_step in H. rewrite W in H. now injection H as <-.
  - unfold Wait_step in H. rewrite W in H. now injection H as <-.
  - unfold Wait_step in H. rewrite W in H. discriminate.
Qed.

Lemma step_ctxErr a s s' :
  step a s = Some s' -> ctxErr (Context (obj s)) <> nil ->
  ctxErr (Context (obj s')) <> nil.
Proof.
  intros E Hx. destruct a as [d|e| | |b]; simpl in E.
  - destruct (0 <=? d); [|discriminate]. now injection E as <-.
  - destruct (ctxErr (Context (obj s))); [discriminate|]. now elim Hx.
  - now rewrite (Run_step_Context s s' E).
  - now rewrite (Wait_step_Context s s' E).
  - apply Select_step_wpc in E. destruct E as (t & _ & _ & ->). exact Hx.
Qed.

Lemma exec_ctxErr acts :
  forall s s', exec acts s = Some s' -> ctxErr (Context (obj s)) <> nil ->
               ctxErr (Context (obj s')) <> nil.
Proof.
  induction acts as [|a acts IH]; simpl; intros s s' H Hx.
  - now injection H as <-.
  - destruct (step a s) as [s1|] eqn:E; [|discriminate].
    apply (IH s1 s' H). now apply (step_ctxErr a s s1).
Qed.

(** [Wait] is entered at [s0], before the deadline; [Run]'s
    [Cancel(errTaskDone)] is the one recorded in the context and the
    caller's context is not done when [Wait] has returned: then [Wait] has
    returned what [Run] stored. *)
Lemma Wait_after_Run_first now c timeout o x pre rest s0 s r :
  slotOf c o = Some x ->
  exec pre (newTask now c timeout o) = Some s0 ->
  wpc s0 = WaitStart -> dl (obj s0) = 0 \/ clock s0 <= dl (obj s0) ->
  exec (WaitStep :: rest) s0 = Some s -> returned s r ->
  err (obj s) = Some errTaskDone -> ctxErr (Context (obj s)) = nil ->
  r = Some x /\ Err (obj s) = nil.
Proof.
  intros Hx Hpre H0 Hd Hex Hr He Hp.
  assert (I0 : Inv c o s0).
  { apply exec_Inv with pre (newTask now c timeout o); [apply Inv_newTask | exact Hpre]. }
  assert (SF : slotFirst (WaitStep :: rest) s0 r).
  { simpl in Hex. destruct (Wait_step s0) as [s1|] eqn:E; [|discriminate].
    apply (slotFirst_cons WaitStep rest s0 s1 r E).
    apply (from_select rest s1 s r); trivial.
    now apply (Wait_entry_atSelect s0 s1). }
  destruct SF as (pre' & post & s1 & A & B & C & D).
  assert (I1 : Inv c o s1) by (apply exec_Inv with pre' s0; assumption).
  assert (Hpost : exec (WaitStep :: post) s1 = Some s).
  { rewrite A, exec_app, B in Hex. exact Hex. }
  destruct I1 as (_ & IR & IW & _). unfold InvWait in IW. rewrite C in IW.
  split.
  - destruct IW as [[R1 R2]|[_ [[N1 N2]|N]]].
    + unfold InvRun in IR. rewrite R1 in IR. destruct IR as [IR _].
      unfold Load in D. rewrite IR, Hx in D. exact D.
    + destruct (err (obj s1)) as [y|] eqn:Y; [|now elim N1].
      rewrite (exec_err _ s1 s y Hpost Y) in He. congruence.
    + elim (exec_ctxErr _ s1 s Hpost N). exact Hp.
  - unfold Err. rewrite He. simpl. exact Hp.
Qed.




(** X18.  The endpoint returns the error [E], not nil.  Whenever [Wait] has
    returned while the caller's context is not done and the deadline of the
    task (if it has one) is still ahead, it has returned [E] itself and
    [Err()] of the returned context is nil.  More generally, whenever [Wait]
    was entered before the deadline had passed and has returned, [Run]'s
    completion being what the context recorded (so [Run] completed before
    the deadline fired and before the caller's cancellation was seen) and
    the caller's context not being done, it has returned [E] and [Err()] of
    the returned context is nil.  And [Wait] does return in this way: the
    schedule [runThenWait] ends with it. *)
Theorem Wait_returns_endpoint_error (now : Time) (c : context) (timeout : Duration)
    (E : errval) :
  let init := newTask now c timeout (EpReturn (Some E)) in
  (forall acts s r,
     exec acts init = Some s -> wpc s = WaitDone r ->
     ctxErr (Context (obj s)) = nil ->
     dl (obj s) = 0 \/ clock s < dl (obj s) ->
     r = Some E /\ Err (obj s) = nil) /\
  (forall pre rest s0 s r,
     exec pre init = Some s0 -> wpc s0 = WaitStart ->
     dl (obj s0) = 0 \/ clock s0 <= dl (obj s0) ->
     exec (WaitStep :: rest) s0 = Some s -> wpc s = WaitDone r ->
     err (obj s) = Some errTaskDone -> ctxErr (Context (obj s)) = nil ->
     r = Some E /\ Err (obj s) = nil) /\
  (ctxErr c = nil -> dl (obj init) = 0 \/ now <= dl (obj init) ->
     exists s, exec runThenWait init = Some s /\ wpc s = WaitDone (Some E) /\
               Err (obj s) = nil).
Proof.
  intro init. split; [|split].
  - intros acts s r He Hw Hp Hd.
    apply (Inv_result c (EpReturn (Some E)) s r); auto.
    apply exec_Inv with acts init; [apply Inv_newTask | exact He].
  - intros pre rest s0 s r Hpre H0 Hd Hex Hw He Hp.
    apply (Wait_after_Run_first now c timeout (EpReturn (Some E)) E pre rest s0 s r);
      trivial.
    now right.
  - intros Hc Hd.
    destruct (runThenWait_returns now c timeout (EpReturn (Some E)) E
                ltac:(discriminate) eq_refl Hd)
      as (s & H1 & H2 & H3 & _).
    exists s. rewrite H3. auto.
Qed.

(** X19.  The endpoint panics with a value, printed as [v], that
    [recover()] returns as not nil.  [Run] never lets the panic out: it
    makes from it an error [e] that is not nil and whose message contains
    [v], and [e] is in the slot when [Run] is about to call
    [Cancel(errTaskDone)] and afterwards, until [Wait] has returned.
    Whenever [Wait] was entered before the deadline had passed and has
    returned, [Run]'s completion being what the context recorded and the
    caller's context not being done, it has returned [e] and [Err()] of the
    returned context is nil; the schedule [runThenWait] is one in which it
    does. *)
Theorem Run_recovers_panic (now : Time) (c : context) (timeout : Duration)
    (v stack : string) :
  let init := newTask now c timeout (EpPanic v stack) in
  exists e,
    slotOf c (EpPanic v stack) = Some e /\ Contains (Error e) v = true /\
    (forall acts s,
       exec acts init = Some s ->
       rpc s <> RunCrashed /\
       (rpc s = RunDeferred \/ rpc s = RunRecycling -> task_err (tsk s) = Some e)) /\
    (forall pre rest s0 s r,
       exec pre init = Some s0 -> wpc s0 = WaitStart ->
       dl (obj s0) = 0 \/ clock s0 <= dl (obj s0) ->
       exec (WaitStep :: rest) s0 = Some s -> wpc s = WaitDone r ->
       err (obj s) = Some errTaskDone -> ctxErr (Context (obj s)) = nil ->
       r = Some e /\ Err (obj s) = nil) /\
    (ctxErr c = nil -> dl (obj init) = 0 \/ now <= dl (obj init) ->
       exists s, exec runThenWait init = Some s /\ wpc s = WaitDone (Some e) /\
                 Err (obj s) = nil).
Proof.
  intro init.
  destruct (slotOf_panic c v stack) as (e & He & Hc).
  exists e. split; [exact He|]. split; [exact Hc|]. split; [|split].
  - intros acts s Hex.
    assert (HI : Inv c (EpPanic v stack) s).
    { apply exec_Inv with acts init; [apply Inv_newTask | exact Hex]. }
    destruct HI as (_ & HR & _). unfold InvRun in HR.
    split.
    + intro E. now rewrite E in HR.
    + intros [E|E]; rewrite E in HR; rewrite <- He; tauto.
  - intros pre rest s0 s r Hpre H0 Hd Hex Hw Herr Hp.
    apply (Wait_after_Run_first now c timeout (EpPanic v stack) e pre rest s0 s r);
      trivial.
    now right.
  - intros Hp Hd.
    destruct (runThenWait_returns now c timeout (EpPanic v stack) e
                ltac:(discriminate) He Hd)
      as (s & H1 & H2 & H3 & _).
    exists s. rewrite H3. auto.
Qed.

(** C10.  In every state that a task reaches, [Run] has not been stopped by
    a panic of [Store]: the only panics are those of the endpoint.  The slot
    holds nothing or the error, not nil, that [Run] got from the endpoint or
    made from its panic, so what [Wait] loads and converts to [error] is
    never nil.  When the endpoint returns nil the slot stays empty and
    [Wait], returning with the caller's context not done and the deadline
    ahead, returns nil. *)
Theorem slot_never_nil (now : Time) (c : context) (timeout : Duration)
    (o : epOutcome) (acts : list action) (s : state) :
  exec acts (newTask now c timeout o) = Some s ->
  rpc s <> RunCrashed /\
  (forall v st, rpc s = RunPanicking v st -> o = EpPanic v st) /\
  (Load (task_err (tsk s)) = nil \/
   exists x, Load (task_err (tsk s)) = Some x /\ slotOf c o = Some x) /\
  (o = EpReturn nil ->
     Load (task_err (tsk s)) = nil /\
     forall r, wpc s = WaitDone r -> ctxErr (Context (obj s)) = nil ->
               dl (obj s) = 0 \/ clock s < dl (obj s) -> r = nil).
Proof.
  intro Hex.
  assert (HI : Inv c o s).
  { apply exec_Inv with acts (newTask now c timeout o); [apply Inv_newTask | exact Hex]. }
  assert (HR : InvRun c o s) by (destruct HI as (_ & HR & _); exact HR).
  unfold InvRun in HR. unfold Load.
  assert (Hslot : task_err (tsk s) = nil \/ task_err (tsk s) = slotOf c o).
  { destruct (rpc s); tauto. }
  split; [|split; [|split]].
  - intro E. now rewrite E in HR.
  - intros v st E. rewrite E in HR. tauto.
  - destruct Hslot as [H|H]; [now left|].
    destruct (task_err (tsk s)) as [x|]; [right|now left].
    exists x. auto.
  - intro Ho. subst o. simpl in Hslot. split; [tauto|].
    intros r Hw Hp Hd.
    apply (Inv_result c (EpReturn nil) s r); auto.
Qed.

(** ** The tests of [TestTask] and the late entry of [Wait] *)

Lemma Wait_returns_endpoint_error_witness :
  exists s,
    exec scheduleReturnErr taskReturnErr = Some s /\
    wpc s = WaitDone (Some epError) /\ Err (obj s) = nil.
Proof.
  eexists. split; [vm_compute; reflexivity|].
  split; [reflexivity|].
  refine (proj2 (proj1 (proj2 (Wait_returns_endpoint_error 0 Background
                                 (20 * Millisecond) epError))
                   [] (tl scheduleReturnErr) _ _ (Some epError) _ _ _ _ _ _ _)).
  - reflexivity.
  - reflexivity.
  - right. vm_compute. discriminate.
  - vm_compute; reflexivity.
  - reflexivity.
  - reflexivity.
  - reflexivity.
Defined.

Lemma Run_recovers_panic_witness :
  exists e s,
    exec runThenWait taskPanic = Some s /\ wpc s = WaitDone (Some e) /\
    Contains (Error e) "testpanic" = true /\ Err (obj s) = nil.
Proof.
  destruct (Run_recovers_panic 0 Background (20 * Millisecond) "testpanic" aStack)
    as (e & _ & Hc & _ & _ & Hex).
  destruct Hex as (s & H1 & H2 & H3).
  - reflexivity.
  - right. vm_compute. discriminate.
  - exists e, s. auto.
Defined.

Lemma slot_never_nil_witness :
  exists s,
    exec (runThenWait ++ [WaitStep]) taskOk = Some s /\
    rpc s <> RunCrashed /\ Load (task_err (tsk s)) = nil /\ wpc s = WaitDone nil.
Proof.
  eexists. split; [vm_compute; reflexivity|].
  destruct (slot_never_nil 0 Background (20 * Millisecond) (EpReturn nil)
              (runThenWait ++ [WaitStep]) _ ltac:(vm_compute; reflexivity))
    as (H1 & _ & _ & H4).
  split; [exact H1|]. split; [exact (proj1 (H4 eq_refl))|]. reflexivity.
Defined.

Lemma Wait_inspects_slot_first_witness :
  exists s,
    exec scheduleReturnErr taskReturnErr = Some s /\
    slotFirst scheduleReturnErr taskReturnErr (Some epError).
Proof.
  eexists. split; [vm_compute; reflexivity|].
  refine (Wait_inspects_slot_first taskReturnErr (tl scheduleReturnErr) _
            (Some epError) _ _ _ _).
  - reflexivity.
  - right. vm_compute. discriminate.
  - vm_compute; reflexivity.
  - right. reflexivity.
Defined.

(** C1.  On the path taken when the deadline has passed on entry, [Wait]
    does not inspect the slot: it returns after
    [t.Cancel(context.DeadlineExceeded)] with [t.ctx.Err()].  The endpoint
    has returned [epError], which is in the slot, [Run] has finished, and
    [Wait], entered 10 ms after the deadline of 50 ms, returns nil, which is
    what the context's [Err()] gives; no moment of the schedule has [Wait]
    at the load of the slot. *)
Lemma Wait_late_entry_skips_slot :
  exists s,
    exec scheduleLateWait
      (newTask 0 Background (50 * Millisecond) (EpReturn (Some epError))) = Some s /\
    Load (task_err (tsk s)) = Some epError /\
    wpc s = WaitReturn nil /\
    ~ slotFirst scheduleLateWait
        (newTask 0 Background (50 * Millisecond) (EpReturn (Some epError))) nil.
Proof.
  eexists. split; [vm_compute; reflexivity|].
  split; [reflexivity|]. split; [reflexivity|].
  intros (pre & post & s1 & A & B & C & _).
  unfold scheduleLateWait in A.
  do 7 (destruct pre as [|? pre];
        [ try discriminate A;
          vm_compute in B; injection B as <-; discriminate C
        | injection A as <- A ]).
  destruct pre; discriminate A.
Qed.

(** C8.  The endpoint of the test ReturnErr returns [epError]; [Run] stores
    it and completes with [Cancel(errTaskDone)] at time 0, before the
    deadline of 20 ms, and the caller's context is never done.  [Wait],
    entered 30 ms later, takes the path of the passed deadline: its
    [Cancel] has no effect, and it returns [t.ctx.Err()], which is nil, and
    not [epError], which the slot holds. *)
Theorem Wait_late_entry_loses_error :
  exists s1 s,
    exec [RunStep; RunStep; RunStep] taskReturnErr = Some s1 /\
    rpc s1 = RunRecycling /\ err (obj s1) = Some errTaskDone /\
    clock s1 < dl (obj s1) /\ ctxErr (Context (obj s1)) = nil /\
    exec lateEntry s1 = Some s /\
    ctxErr (Context (obj s)) = nil /\
    Load (task_err (tsk s)) = Some epError /\
    wpc s = WaitDone nil /\ Err (obj s) = nil.
Proof.
  eexists. eexists. split; [vm_compute; reflexivity|].
  split; [reflexivity|]. split; [reflexivity|].
  split; [vm_compute; reflexivity|]. split; [reflexivity|].
  split; [vm_compute; reflexivity|].
  repeat split.
Qed.

(** C7.  Two endpoints that panic, on tasks with the timeout of 20 ms of the
    test Panic.  The first panics with ["testpanic"]: [Run] stores the error
    made from the panic and completes at time 0; [Wait], entered 30 ms
    later, takes the path of the passed deadline and returns nil, while the
    slot holds the error whose message contains ["testpanic"].  The second
    calls [panic(nil)] where [recover()] returns nil: the deferred function
    of [Run] stores nothing, the slot is empty when [Cancel(errTaskDone)]
    is called, and [Wait], entered at once, returns nil. *)
Theorem Wait_loses_panic :
  (exists s e,
     exec ([RunStep; RunStep; RunStep] ++ lateEntry) taskPanic = Some s /\
     Load (task_err (tsk s)) = Some e /\ Contains (Error e) "testpanic" = true /\
     err (obj s) = Some errTaskDone /\
     wpc s = WaitDone nil /\ Err (obj s) = nil) /\
  (exists s1 s,
     exec [RunStep] taskPanicNil = Some s1 /\
     rpc s1 = RunDeferred /\ Load (task_err (tsk s1)) = nil /\
     exec cancelThenWait s1 = Some s /\
     rpc s = RunRecycling /\ Load (task_err (tsk s)) = nil /\
     wpc s = WaitDone nil /\ Err (obj s) = nil).
Proof.
  split.
  - eexists. eexists. split; [vm_compute; reflexivity|].
    split; [reflexivity|]. split; [vm_compute; reflexivity|].
    repeat split.
  - eexists. eexists. split; [vm_compute; reflexivity|].
    split; [reflexivity|]. split; [reflexivity|].
    split; [vm_compute; reflexivity|].
    repeat split.
Qed.



(** * More of the code *)

(** ** The task: channel, fields, what [Wait] cancels *)

Lemma Inv2_newTask now c timeout o : Inv2 o (newTask now c timeout o).
Proof. unfold Inv2, InvChan, InvFields, InvCancel; simpl. auto. Qed.

Lemma Inv_preStore c o s :
  Inv c o s -> preStore (rpc s) = true -> task_err (tsk s) = None.
Proof.
  intros (_ & HR & _) H. unfold InvRun in HR.
  destruct (rpc s); try discriminate; tauto.
Qed.

Lemma Inv_fired c o s :
  Inv c o s ->
  (wpc s = WaitFired BrParent -> ctxErr (Context (obj s)) <> nil) /\
  (wpc s = WaitFired BrTimer -> deadlineReached s).
Proof.
  intros (_ & _ & HW & _). unfold InvWait in HW.
  split; intro E; rewrite E in HW; unfold deadlineReached; tauto.
Qed.

Lemma step_Tick_Inv2 o s s' d : Inv2 o s -> step (Tick d) s = Some s' -> Inv2 o s'.
Proof.
  unfold step. destruct (0 <=? d) eqn:E; [|discriminate].
  apply Z.leb_le in E. intros HJ H. injection H as <-.
  destruct s as [clk ob tk rp wp].
  destruct wp as [ | | | [|] | [| |] | | | r | r]; destruct rp; finish2.
Qed.

Lemma step_ParentDone_Inv2 o s s' e :
  Inv2 o s -> step (ParentDone e) s = Some s' -> Inv2 o s'.
Proof.
  unfold step. intros HJ H.
  destruct s as [clk [cx d n er] tk rp wp]. simpl in H.
  destruct (ctxErr cx) eqn:E; [discriminate|]. injection H as <-.
  destruct wp as [ | | | [|] | [| |] | | | r | r]; destruct rp; finish2.
Qed.

Lemma step_Run_Inv2 o s s' : Inv2 o s -> Run_step s = Some s' -> Inv2 o s'.
Proof.
  intros HJ H.
  destruct s as [clk [cx d n er] [tcx w e sl] rp wp].
  unfold Run_step in H; simpl in H.
  destruct rp as [ | e0 | v st | | | | ].
  - destruct e as [[e0|v st| | |e0| ]|]; try discriminate;
      try (destruct (Done _) eqn:Dn; [|discriminate]);
      injection H as <-;
      destruct wp as [ | | | [|] | [| |] | | | r | r]; finish2.
  - destruct e0 as [x|]; simpl in H; injection H as <-;
      destruct wp as [ | | | [|] | [| |] | | | r | r]; finish2.
  - unfold GetRPCInfo in H. simpl in H.
    destruct (ctxRPCInfo cx) as [ri|]; simpl in H; injection H as <-;
      destruct wp as [ | | | [|] | [| |] | | | r | r]; finish2.
  - injection H as <-. unfold Cancel; simpl.
    destruct er as [x|]; simpl;
      destruct wp as [ | | | [|] | [| |] | | | r | r]; finish2.
  - destruct w; [|discriminate]. injection H as <-.
    destruct wp as [ | | | [|] | [| |] | | | r | r]; finish2.
  - discriminate.
  - discriminate.
Qed.

Lemma step_Select_Inv2 o s s' b : Inv2 o s -> Select_step b s = Some s' -> Inv2 o s'.
Proof.
  intros HJ H.
  destruct s as [clk [cx d n er] tk rp wp].
  unfold Select_step in H; simpl in H.
  destruct wp as [ | | | timed | | | | | ]; try discriminate.
  destruct (ready timed b _) eqn:R; [|discriminate]. injection H as <-.
  unfold ready, Done in R; simpl in R.
  destruct b.
  - apply Nat.ltb_lt in R.
    destruct er as [x|]; destruct rp; finish2.
  - destruct rp; finish2.
  - destruct rp; finish2.
Qed.

Lemma step_Wait_Inv2 c o s s' :
  Inv c o s -> Inv2 o s -> Wait_step s = Some s' -> Inv2 o s'.
Proof.
  intros HI HJ H.
  pose proof (Inv_preStore c o s HI) as F1.
  destruct (Inv_fired c o s HI) as [F2 F3]. clear HI.
  destruct s as [clk [cx d n er] [tcx w e sl] rp wp].
  unfold Wait_step in H; simpl in H. simpl in F1, F2, F3.
  destruct wp as [ | | | timed | [| |] | | | r | r].
  - unfold IsZero, Until in H.
    destruct (d =? 0) eqn:Z0; simpl in H.
    + injection H as <-. destruct rp; finish2.
    + apply Z.eqb_neq in Z0.
      destruct (d - clk <? 0) eqn:L; injection H as <-.
      * apply Z.ltb_lt in L. destruct rp; finish2.
      * destruct rp; finish2.
  - injection H as <-. unfold Cancel; simpl.
    destruct er; simpl; destruct rp; finish2.
  - injection H as <-. unfold Err; simpl.
    destruct er as [[| | | | |]|]; simpl; destruct rp; finish2.
  - discriminate.
  - injection H as <-. destruct rp; finish2.
  - injection H as <-. unfold Cancel; simpl.
    destruct (ctxErr cx) eqn:P, er; simpl; destruct rp; finish2.
  - injection H as <-. unfold Cancel; simpl.
    destruct er; simpl; destruct rp; finish2.
  - unfold Load in H. destruct sl as [v|]; injection H as <-; destruct rp; finish2.
  - injection H as <-. unfold Err; simpl.
    destruct er as [[| | | | |]|]; simpl; destruct rp; finish2.
  - injection H as <-.
    destruct rp; try solve [finish2].
    unfold_inv2. destruct HJ as (HC & HF & HK).
    injection HF as -> -> -> ->. simpl. tauto.
  - discriminate.
Qed.

Lemma step_Inv2 c o a s s' :
  Inv c o s -> Inv2 o s -> step a s = Some s' -> Inv2 o s'.
Proof.
  intros HI HJ. destruct a; simpl.
  - now apply step_Tick_Inv2.
  - now apply step_ParentDone_Inv2.
  - now apply step_Run_Inv2.
  - now apply step_Wait_Inv2 with c.
  - now apply step_Select_Inv2.
Qed.

Lemma exec_Inv2 c o acts :
  forall s s', Inv c o s -> Inv2 o s -> exec acts s = Some s' -> Inv2 o s'.
Proof.
  induction acts as [|a acts IH]; simpl; intros s s' HI HJ H.
  - now injection H as <-.
  - destruct (step a s) as [s1|] eqn:E; [|discriminate].
    apply (IH s1); [| |exact H].
    + now apply step_Inv with a s.
    + now apply step_Inv2 with c a s.
Qed.

(** ** The task: completion and results *)

Lemma reach_Inv now c timeout o acts s :
  exec acts (newTask now c timeout o) = Some s -> Inv c o s /\ Inv2 o s.
Proof.
  intro H. split.
  - apply exec_Inv with acts (newTask now c timeout o); [apply Inv_newTask | exact H].
  - apply exec_Inv2 with c acts (newTask now c timeout o);
      [apply Inv_newTask | apply Inv2_newTask | exact H].
Qed.

Lemma progress c o s :
  Inv c o s -> Inv2 o s -> unblocked o s -> rpc s <> RunDone ->
  exists s', step (nextAction s) s = Some s' /\ (rank s' < rank s)%nat /\
             rpc s' <> RunStart.
Proof.
  intros HI HJ Hu Hn.
  destruct s as [clk [cx d n er] [tcx w e sl] rp wp].
  unfold unblocked, canEnd in Hu. simpl in Hu.
  unfold nextAction, rank. simpl.
  destruct rp as [ | e0 | v st | | | | ]; simpl.
  - unfold Run_step. simpl.
    assert (He : e = Some o) by (unfold_inv2; tauto). subst e.
    destruct Hu as [Hu|Hu]; [now elim Hu|].
    destruct o; try discriminate Hu; try rewrite Hu;
      eexists; (split; [reflexivity|]); simpl; (split; [lia|discriminate]).
  - unfold Run_step. simpl.
    destruct e0; simpl; eexists; (split; [reflexivity|]); simpl;
      (split; [lia|discriminate]).
  - unfold Run_step, GetRPCInfo. simpl.
    destruct (ctxRPCInfo cx); simpl; eexists; (split; [reflexivity|]); simpl;
      (split; [lia|discriminate]).
  - unfold Run_step. simpl. eexists; (split; [reflexivity|]); simpl;
      (split; [lia|discriminate]).
  - assert (Hwg : w = match wp with WaitDone _ => 0%nat | _ => 1%nat end).
    { destruct HI as (_ & _ & _ & HG). exact HG. }
    assert (Hch : n = 1%nat).
    { destruct HI as (_ & HR & _). destruct HJ as (HC & _).
      unfold InvRun in HR. unfold InvChan in HC. simpl in *.
      destruct er; [exact HC | tauto]. }
    subst n.
    destruct wp as [ | | | timed | [| |] | | | r | r]; simpl;
      try (unfold Wait_step; simpl;
           eexists; (split; [reflexivity|]); simpl; (split; [lia|discriminate])).
    + unfold Wait_step, Deadline, IsZero, Until. simpl.
      destruct (negb (negb (d =? 0)));
        [eexists; split; [reflexivity|simpl; split; [lia|discriminate]]|].
      destruct (d - clk <? 0); eexists; (split; [reflexivity|]); simpl;
        (split; [lia|discriminate]).
    + unfold Wait_step, Load. simpl.
      destruct sl; eexists; (split; [reflexivity|]); simpl;
        (split; [lia|discriminate]).
    + subst w. unfold Run_step. simpl. eexists; (split; [reflexivity|]); simpl;
        (split; [lia|discriminate]).
  - now elim Hn.
  - destruct HI as (_ & HR & _). elim HR.
Qed.

Lemma nextAction_ownStep s : ownStep (nextAction s).
Proof.
  unfold nextAction, ownStep.
  destruct (preCancel (rpc s)); [now left|].
  destruct (wpc s); auto.
Qed.

Lemma completion_ownStep n : forall s, Forall ownStep (completion n s).
Proof.
  induction n as [|n IH]; intro s; simpl; [constructor|].
  destruct (rpc s); try constructor;
    destruct (step (nextAction s) s); constructor;
    try apply nextAction_ownStep; apply IH.
Qed.

Lemma completion_ok c o n :
  forall s, Inv c o s -> Inv2 o s -> unblocked o s -> (rank s <= n)%nat ->
  exists s' r, exec (completion n s) s = Some s' /\ rpc s' = RunDone /\
               wpc s' = WaitDone r /\ (List.length (completion n s) <= rank s)%nat.
Proof.
  induction n as [|n IH]; intros s HI HJ Hu Hr.
  - assert (Hd : rpc s = RunDone).
    { unfold rank in Hr. destruct (rpc s) eqn:R; simpl in Hr; try lia; trivial.
      destruct HI as (_ & HR & _). unfold InvRun in HR. now rewrite R in HR. }
    destruct HI as (_ & HR & _). unfold InvRun in HR. rewrite Hd in HR.
    destruct HR as [_ [r Hw]].
    exists s, r. simpl. repeat split; trivial. lia.
  - destruct (rpc s) eqn:R;
      try (destruct (progress c o s HI HJ Hu ltac:(rewrite R; discriminate))
             as (s1 & E & Hlt & Hs);
           simpl; rewrite R, E;
           destruct (IH s1) as (s' & r & A & B & C & D);
           [ now apply step_Inv with (nextAction s) s
           | now apply step_Inv2 with c (nextAction s) s
           | now left
           | lia
           | exists s', r; simpl; rewrite E; repeat split; trivial; lia ]).
    destruct HI as (_ & HR & _). unfold InvRun in HR. rewrite R in HR.
    destruct HR as [_ [r Hw]].
    exists s, r. simpl. rewrite R. simpl. repeat split; trivial. lia.
Qed.

(** X4.  Once the call of the endpoint is over or can end (the endpoint
    does not wait, or it waits for the task context and the context is
    done), the task does not get stuck: from every such state it reaches,
    the scheduler [nextAction] brings it in at most ten steps to the state
    in which [Wait] has returned and [Run] has recycled the task; the steps
    are steps of [Run] and [Wait] and the case of the closed channel of the
    task context in the select, none of the clock or of the caller. *)
Theorem task_completes (now : Time) (c : context) (timeout : Duration)
    (o : epOutcome) (acts : list action) (s : state) :
  exec acts (newTask now c timeout o) = Some s ->
  unblocked o s ->
  exists s' r,
    exec (acts ++ completion 10 s) (newTask now c timeout o) = Some s' /\
    rpc s' = RunDone /\ wpc s' = WaitDone r /\ tsk s' = cleared /\
    (List.length (completion 10 s) <= 10)%nat /\
    Forall ownStep (completion 10 s).
Proof.
  intros H Hu. destruct (reach_Inv now c timeout o acts s H) as [HI HJ].
  assert (Hr : (rank s <= 10)%nat).
  { unfold rank. destruct (rpc s), (wpc s); simpl; lia. }
  destruct (completion_ok c o 10 s HI HJ Hu Hr) as (s' & r & A & B & C & D).
  exists s', r. rewrite exec_app, H.
  split; [exact A|]. split; [exact B|]. split; [exact C|].
  split; [|split; [lia | apply completion_ownStep]].
  assert (HJ' : Inv2 o s') by (apply exec_Inv2 with c (completion 10 s) s; assumption).
  destruct HJ' as (_ & HF & _). unfold InvFields in HF. now rewrite B in HF.
Qed.

(** *** Deadlines and endpoints that wait *)

Lemma Wait_step_frame s s' :
  Wait_step s = Some s' ->
  rpc s' = rpc s /\ clock s' = clock s /\ dl (obj s') = dl (obj s).
Proof.
  intro H. destruct (wpc s) as [ | | | t | [| |] | | | r | r] eqn:W.
  - rewrite (Wait_step_entry s W) in H. now injection H as <-.
  - unfold Wait_step in H. rewrite W in H. injection H as <-.
    simpl. now rewrite Cancel_dl.
  - unfold Wait_step in H. rewrite W in H. now injection H as <-.
  - unfold Wait_step in H. rewrite W in H. discriminate.
  - unfold Wait_step in H. rewrite W in H. now injection H as <-.
  - unfold Wait_step in H. rewrite W in H. injection H as <-.
    simpl. now rewrite Cancel_dl.
  - unfold Wait_step in H. rewrite W in H. injection H as <-.
    simpl. now rewrite Cancel_dl.
  - unfold Wait_step in H. rewrite W in H.
    destruct (Load (task_err (tsk s))); now injection H as <-.
  - unfold Wait_step in H. rewrite W in H. now injection H as <-.
  - unfold Wait_step in H. rewrite W in H. now injection H as <-.
  - unfold Wait_step in H. rewrite W in H. discriminate.
Qed.

Lemma waitProgress s :
  dl (obj s) <> 0 -> dl (obj s) <= clock s -> wpc s <> WaitSelect false ->
  (forall r, wpc s <> WaitDone r) ->
  exists s', step (nextWait s) s = Some s' /\
             (waitRank (wpc s') < waitRank (wpc s))%nat /\
             wpc s' <> WaitSelect false /\
             rpc s' = rpc s /\ clock s' = clock s /\ dl (obj s') = dl (obj s).
Proof.
  intros Hz Hd Hf Hn.
  destruct (wpc s) as [ | | | t | b | | | r | r] eqn:W.
  - unfold nextWait. rewrite W. simpl. rewrite (Wait_step_entry s W).
    apply Z.eqb_neq in Hz. rewrite Hz.
    eexists. split; [reflexivity|].
    destruct (dl (obj s) <? clock s); simpl; repeat split; try lia; discriminate.
  - unfold nextWait. rewrite W. simpl. unfold Wait_step. rewrite W.
    eexists. split; [reflexivity|]. simpl.
    rewrite Cancel_dl. repeat split; try lia; discriminate.
  - unfold nextWait. rewrite W. simpl. unfold Wait_step. rewrite W.
    eexists. split; [reflexivity|]. simpl. repeat split; try lia; discriminate.
  - destruct t; [|now elim Hf].
    unfold nextWait. rewrite W. simpl. unfold Select_step. rewrite W.
    unfold ready. apply Z.leb_le in Hd. rewrite Hd. simpl.
    eexists. split; [reflexivity|]. simpl. repeat split; try lia; discriminate.
  - unfold nextWait. rewrite W. simpl. unfold Wait_step. rewrite W.
    destruct b; eexists; (split; [reflexivity|]); simpl;
      rewrite ?Cancel_dl; repeat split; try lia; discriminate.
  - unfold nextWait. rewrite W. simpl. unfold Wait_step. rewrite W.
    destruct (Load (task_err (tsk s))); eexists; (split; [reflexivity|]); simpl;
      repeat split; try lia; discriminate.
  - unfold nextWait. rewrite W. simpl. unfold Wait_step. rewrite W.
    eexists. split; [reflexivity|]. simpl. repeat split; try lia; discriminate.
  - unfold nextWait. rewrite W. simpl. unfold Wait_step. rewrite W.
    eexists. split; [reflexivity|]. simpl. repeat split; try lia; discriminate.
  - now elim (Hn r).
Qed.

Lemma nextWait_waitOnly s : waitOnly (nextWait s).
Proof. unfold nextWait, waitOnly. destruct (wpc s); auto. Qed.

Lemma waitOut_waitOnly n : forall s, Forall waitOnly (waitOut n s).
Proof.
  induction n as [|n IH]; intro s; simpl; [constructor|].
  destruct (wpc s); try constructor;
    destruct (step (nextWait s) s); constructor;
    try apply nextWait_waitOnly; apply IH.
Qed.

Lemma waitOut_length n : forall s, (List.length (waitOut n s) <= n)%nat.
Proof.
  induction n as [|n IH]; intro s; simpl; [lia|].
  destruct (wpc s); simpl; try lia;
    destruct (step (nextWait s) s) as [s1|]; simpl; try lia;
    specialize (IH s1); lia.
Qed.

Lemma waitOut_ok n :
  forall s, dl (obj s) <> 0 -> dl (obj s) <= clock s -> wpc s <> WaitSelect false ->
            (waitRank (wpc s) <= n)%nat ->
  exists s' r, exec (waitOut n s) s = Some s' /\ wpc s' = WaitDone r /\
               rpc s' = rpc s /\ clock s' = clock s.
Proof.
  induction n as [|n IH]; intros s Hz Hd Hf Hr.
  - destruct (wpc s) as [ | | | t | b | | | r | r] eqn:W; simpl in Hr; try lia.
    exists s, r. simpl. auto.
  - assert (Hc : (exists r, wpc s = WaitDone r) \/ (forall r, wpc s <> WaitDone r)).
    { destruct (wpc s); try (right; intro; discriminate). left; eauto. }
    destruct Hc as [[r W]|Hn].
    + exists s, r. simpl. rewrite W. auto.
    + destruct (waitProgress s Hz Hd Hf Hn) as (s1 & E & Hlt & Hf1 & F1 & F2 & F3).
      assert (U : waitOut (S n) s = nextWait s :: waitOut n s1).
      { simpl. rewrite E. destruct (wpc s); trivial. now elim (Hn r). }
      rewrite U. simpl. rewrite E.
      destruct (IH s1) as (s' & r' & A & B & C & D);
        [ now rewrite F3 | now rewrite F3, F2 | exact Hf1 | lia | ].
      exists s', r'. repeat split; trivial; congruence.
Qed.

Lemma Run_step_dl s s' : Run_step s = Some s' -> dl (obj s') = dl (obj s).
Proof.
  unfold Run_step. intro H.
  destruct (rpc s) as [ | e | v st | | | | ].
  - destruct (ep (tsk s)) as [[e|v st| | |e| ]|]; try discriminate;
      try (destruct (Done (obj s)); [|discriminate]); now injection H as <-.
  - destruct (negb (error_eqb e nil)); [|now injection H as <-].
    destruct (Store e (task_err (tsk s))); now injection H as <-.
  - destruct (Store _ (task_err (tsk s))); now injection H as <-.
  - injection H as <-. simpl. apply Cancel_dl.
  - destruct (wg (tsk s)); [|discriminate]. now injection H as <-.
  - discriminate.
  - discriminate.
Qed.

Lemma step_InvTimer a s s' : InvTimer s -> step a s = Some s' -> InvTimer s'.
Proof.
  unfold InvTimer. intros HT E W'.
  destruct a as [d|e| | |b]; simpl in E.
  - destruct (0 <=? d); [|discriminate]. injection E as <-. now apply HT.
  - destruct (ctxErr (Context (obj s))); [discriminate|]. injection E as <-.
    now apply HT.
  - rewrite (Run_step_dl s s' E). apply HT.
    now rewrite <- (Run_step_wpc s s' E).
  - destruct (Wait_step_frame s s' E) as (_ & _ & ->).
    destruct (wpc s) as [ | | | t | [| |] | | | r | r] eqn:W.
    + rewrite (Wait_step_entry s W) in E. injection E as <-. simpl in W'.
      destruct (dl (obj s) =? 0) eqn:Z0; [now apply Z.eqb_eq|].
      destruct (dl (obj s) <? clock s); discriminate.
    + unfold Wait_step in E. rewrite W in E. injection E as <-. discriminate.
    + unfold Wait_step in E. rewrite W in E. injection E as <-. discriminate.
    + unfold Wait_step in E. rewrite W in E. discriminate.
    + unfold Wait_step in E. rewrite W in E. injection E as <-. discriminate.
    + unfold Wait_step in E. rewrite W in E. injection E as <-. discriminate.
    + unfold Wait_step in E. rewrite W in E. injection E as <-. discriminate.
    + unfold Wait_step in E. rewrite W in E.
      destruct (Load (task_err (tsk s))); injection E as <-; discriminate.
    + unfold Wait_step in E. rewrite W in E. injection E as <-. discriminate.
    + unfold Wait_step in E. rewrite W in E. injection E as <-. discriminate.
    + unfold Wait_step in E. rewrite W in E. discriminate.
  - apply Select_step_wpc in E. destruct E as (t & _ & _ & ->). discriminate.
Qed.

Lemma exec_InvTimer acts :
  forall s s', InvTimer s -> exec acts s = Some s' -> InvTimer s'.
Proof.
  induction acts as [|a acts IH]; simpl; intros s s' HT H.
  - now injection H as <-.
  - destruct (step a s) as [s1|] eqn:E; [|discriminate].
    apply (IH s1); [|exact H]. now apply step_InvTimer with a s.
Qed.

Lemma InvTimer_newTask now c timeout o : InvTimer (newTask now c timeout o).
Proof. unfold InvTimer. simpl. discriminate. Qed.

Lemma Tick_untilDeadline s :
  step (Tick (untilDeadline s)) s
  = Some {| clock := Z.max (clock s) (dl (obj s)); obj := obj s; tsk := tsk s;
            rpc := rpc s; wpc := wpc s |}.
Proof.
  unfold step, untilDeadline.
  destruct (0 <=? Z.max 0 (dl (obj s) - clock s)) eqn:L.
  - do 2 f_equal. lia.
  - apply Z.leb_gt in L. lia.
Qed.

(** X20.  [Wait] does not depend on [Run] once the deadline is reached:
    from every state that a task with a deadline reaches, whatever its
    endpoint does, also when it never returns, let the clock reach the
    deadline; then at most six steps of [Wait] alone, which takes the case
    of the timer in the select, make it return; [Run] has not moved, and
    the clock shows the deadline, or what it showed when that was later. *)
Theorem Wait_returns_at_deadline (now : Time) (c : context) (timeout : Duration)
    (o : epOutcome) (acts : list action) (s : state) :
  exec acts (newTask now c timeout o) = Some s ->
  dl (obj s) <> 0 ->
  exists s1 s' r,
    step (Tick (untilDeadline s)) s = Some s1 /\
    exec (acts ++ Tick (untilDeadline s) :: waitOut 6 s1) (newTask now c timeout o)
    = Some s' /\
    wpc s' = WaitDone r /\ rpc s' = rpc s /\
    clock s' = Z.max (clock s) (dl (obj s)) /\
    Forall waitOnly (waitOut 6 s1) /\ (List.length (waitOut 6 s1) <= 6)%nat.
Proof.
  intros H Hz.
  assert (HT : InvTimer s).
  { apply exec_InvTimer with acts (newTask now c timeout o);
      [apply InvTimer_newTask | exact H]. }
  pose proof (Tick_untilDeadline s) as E.
  set (s1 := {| clock := Z.max (clock s) (dl (obj s)); obj := obj s; tsk := tsk s;
                rpc := rpc s; wpc := wpc s |}) in *.
  destruct (waitOut_ok 6 s1) as (s' & r & A & B & C & D).
  - exact Hz.
  - simpl. lia.
  - simpl. intro W. now elim Hz; apply HT.
  - simpl. destruct (wpc s); simpl; lia.
  - exists s1, s', r. split; [exact E|].
    split; [rewrite exec_app, H; cbn [exec]; rewrite E; exact A|].
    split; [exact B|]. split; [exact C|]. split; [exact D|].
    split; [apply waitOut_waitOnly | apply waitOut_length].
Qed.

Lemma returned_unblocked c o s r :
  Inv c o s -> Inv2 o s -> wpc s = WaitDone r -> o <> EpBlock -> unblocked o s.
Proof.
  intros HI (HC & _ & HK) W Hb. right.
  unfold InvCancel in HK. rewrite W in HK. destruct HK as [Hn _].
  unfold InvChan in HC. unfold canEnd, Done.
  destruct o; trivial; [|now elim Hb].
  destruct (err (obj s)); [now rewrite HC | now elim Hn].
Qed.

Lemma Run_step_clock s s' : Run_step s = Some s' -> clock s' = clock s.
Proof.
  unfold Run_step. intro H.
  destruct (rpc s) as [ | e | v st | | | | ].
  - destruct (ep (tsk s)) as [[e|v st| | |e| ]|]; try discriminate;
      try (destruct (Done (obj s)); [|discriminate]); now injection H as <-.
  - destruct (negb (error_eqb e nil)); [|now injection H as <-].
    destruct (Store e (task_err (tsk s))); now injection H as <-.
  - destruct (Store _ (task_err (tsk s))); now injection H as <-.
  - now injection H as <-.
  - destruct (wg (tsk s)); [|discriminate]. now injection H as <-.
  - discriminate.
  - discriminate.
Qed.

Lemma ownStep_clock a s s' : ownStep a -> step a s = Some s' -> clock s' = clock s.
Proof.
  intros [->|[->| ->]] E; simpl in E.
  - now apply Run_step_clock.
  - now destruct (Wait_step_frame s s' E) as (_ & ? & _).
  - apply Select_step_wpc in E. now destruct E as (t & _ & _ & ->).
Qed.

Lemma exec_ownStep_clock acts :
  forall s s', Forall ownStep acts -> exec acts s = Some s' -> clock s' = clock s.
Proof.
  induction acts as [|a acts IH]; simpl; intros s s' HF H.
  - now injection H as <-.
  - destruct (step a s) as [s1|] eqn:E; [|discriminate].
    inversion HF as [|? ? Ha HF']; subst.
    rewrite (IH s1 s' HF' H). now apply ownStep_clock with a.
Qed.

(** X21.  A task with a deadline whose endpoint returns, panics, or waits
    for the task context and returns, always completes: from every state it
    reaches, when the clock has reached the deadline, the steps of [Wait]
    alone make it return, which closes the channel of the task context if
    it was not closed; the steps of [Run] and [Wait] then lead to the state
    in which [Run] has recycled the task, with no further step of the
    clock and none of the caller. *)
Theorem task_completes_by_deadline (now : Time) (c : context) (timeout : Duration)
    (o : epOutcome) (acts : list action) (s : state) :
  exec acts (newTask now c timeout o) = Some s ->
  dl (obj s) <> 0 -> o <> EpBlock ->
  exists s1 s2 s' r,
    step (Tick (untilDeadline s)) s = Some s1 /\
    exec (waitOut 6 s1) s1 = Some s2 /\
    wpc s2 = WaitDone r /\ Done (obj s2) = true /\
    exec (acts ++ Tick (untilDeadline s) :: waitOut 6 s1 ++ completion 10 s2)
      (newTask now c timeout o) = Some s' /\
    rpc s' = RunDone /\ wpc s' = WaitDone r /\ tsk s' = cleared /\
    clock s' = Z.max (clock s) (dl (obj s)).
Proof.
  intros H Hz Hb.
  destruct (reach_Inv now c timeout o acts s H) as [HI HJ].
  assert (HT : InvTimer s).
  { apply exec_InvTimer with acts (newTask now c timeout o);
      [apply InvTimer_newTask | exact H]. }
  pose proof (Tick_untilDeadline s) as E.
  set (s1 := {| clock := Z.max (clock s) (dl (obj s)); obj := obj s; tsk := tsk s;
                rpc := rpc s; wpc := wpc s |}) in *.
  assert (HI1 : Inv c o s1)
    by (apply step_Inv with (Tick (untilDeadline s)) s; assumption).
  assert (HJ1 : Inv2 o s1)
    by (apply step_Inv2 with c (Tick (untilDeadline s)) s; assumption).
  destruct (waitOut_ok 6 s1) as (s2 & r & A & B & C & D).
  - exact Hz.
  - simpl. lia.
  - simpl. intro W. now elim Hz; apply HT.
  - simpl. destruct (wpc s); simpl; lia.
  - assert (HI2 : Inv c o s2) by (apply exec_Inv with (waitOut 6 s1) s1; assumption).
    assert (HJ2 : Inv2 o s2)
      by (apply exec_Inv2 with c (waitOut 6 s1) s1; assumption).
    pose proof (returned_unblocked c o s2 r HI2 HJ2 B Hb) as Hu.
    assert (Hr : (rank s2 <= 10)%nat).
    { unfold rank. destruct (rpc s2), (wpc s2); simpl; lia. }
    destruct (completion_ok c o 10 s2 HI2 HJ2 Hu Hr) as (s' & r' & A' & B' & C' & D').
    assert (Hr' : r' = r).
    { apply (returned_inj s'); [now right|].
      apply (returned_stable r (completion 10 s2) s2 s'); [now right | exact A']. }
    subst r'.
    assert (Hdone : Done (obj s2) = true).
    { destruct HJ2 as (HC & _ & HK). unfold InvCancel in HK. rewrite B in HK.
      destruct HK as [Hn _]. unfold InvChan in HC. unfold Done.
      destruct (err (obj s2)); [now rewrite HC | now elim Hn]. }
    exists s1, s2, s', r.
    split; [exact E|]. split; [exact A|]. split; [exact B|]. split; [exact Hdone|].
    split; [rewrite exec_app, H; cbn [exec]; rewrite E, exec_app, A; exact A'|].
    split; [exact B'|]. split; [exact C'|]. split.
    + assert (HJ' : Inv2 o s')
        by (apply exec_Inv2 with c (completion 10 s2) s2; assumption).
      destruct HJ' as (_ & HF & _). unfold InvFields in HF. now rewrite B' in HF.
    + rewrite (exec_ownStep_clock (completion 10 s2) s2 s'
                 (completion_ownStep 10 s2) A').
      exact D.
Qed.

Lemma step_hung e a s s' :
  (ctxErr (Context (obj s)) = nil -> hung e s) -> step a s = Some s' ->
  ctxErr (Context (obj s')) = nil -> hung e s'.
Proof.
  intros HP E Hc.
  assert (Hc0 : ctxErr (Context (obj s)) = nil).
  { destruct (ctxErr (Context (obj s))) as [x|] eqn:X; [|reflexivity].
    elim (step_ctxErr a s s' E); [now rewrite X | exact Hc]. }
  destruct (HP Hc0) as (H1 & H2 & H3 & H4 & H5 & H6). clear HP.
  unfold hung.
  destruct a as [d|x| | |b]; simpl in E.
  - destruct (0 <=? d); [|discriminate]. injection E as <-. simpl. auto 10.
  - rewrite Hc0 in E. injection E as <-. discriminate Hc.
  - unfold Run_step in E. rewrite H1, H2 in E. unfold Done in E. rewrite H4 in E.
    discriminate E.
  - destruct H6 as [W|W].
    + rewrite (Wait_step_entry s W) in E. rewrite H3 in E. injection E as <-.
      simpl. auto 10.
    + unfold Wait_step in E. rewrite W in E. discriminate.
  - unfold Select_step in E. destruct H6 as [W|W]; rewrite W in E; [discriminate|].
    unfold ready, Done in E. rewrite H4, Hc0 in E. destruct b; discriminate E.
Qed.

Lemma exec_hung e acts :
  forall s s', (ctxErr (Context (obj s)) = nil -> hung e s) -> exec acts s = Some s' ->
               ctxErr (Context (obj s')) = nil -> hung e s'.
Proof.
  induction acts as [|a acts IH]; simpl; intros s s' HP H.
  - now injection H as <-.
  - destruct (step a s) as [s1|] eqn:E; [|discriminate].
    apply (IH s1); [|exact H]. now apply step_hung with a s.
Qed.

(** X22.  A task without deadline whose endpoint waits for the task context
    does not end by itself: as long as the caller's context is not done,
    the call of the endpoint has not ended, nothing is recorded in the task
    context, [Run] cannot move, no case of the select of [waitNoTimeout] can
    be taken, and the only step of [Wait] is its entry into that select.
    Only the cancellation of the caller's context ends such a task. *)
Theorem endpoint_awaits_without_deadline (now : Time) (c : context)
    (timeout : Duration) (e : error) (acts : list action) (s : state) :
  dl (newTaskContext now c timeout) = 0 ->
  exec acts (newTask now c timeout (EpAwaitDone e)) = Some s ->
  ctxErr (Context (obj s)) = nil ->
  hung e s /\ Run_step s = None /\ (forall b, Select_step b s = None) /\
  (forall s', Wait_step s = Some s' -> wpc s' = WaitSelect false).
Proof.
  intros Hd H Hc.
  assert (Hh : hung e s).
  { apply (exec_hung e acts (newTask now c timeout (EpAwaitDone e)) s); trivial.
    intros _. unfold hung. simpl. auto 10. }
  split; [exact Hh|].
  destruct Hh as (H1 & H2 & H3 & H4 & H5 & H6).
  split; [|split].
  - unfold Run_step. rewrite H1, H2. unfold Done. now rewrite H4.
  - intro b. unfold Select_step. destruct H6 as [W|W]; rewrite W; [reflexivity|].
    unfold ready, Done. rewrite H4, Hc. now destruct b.
  - intros s' E. destruct H6 as [W|W].
    + rewrite (Wait_step_entry s W), H3 in E. now injection E as <-.
    + unfold Wait_step in E. rewrite W in E. discriminate.
Qed.

(** X5.  In every state a task reaches, the channel of its context is closed
    exactly when an error is recorded in the context, and it has been
    closed at most once. *)
Theorem Done_iff_err (now : Time) (c : context) (timeout : Duration)
    (o : epOutcome) (acts : list action) (s : state) :
  exec acts (newTask now c timeout o) = Some s ->
  (Done (obj s) = true <-> err (obj s) <> nil) /\ (ch (obj s) <= 1)%nat.
Proof.
  intro H. destruct (reach_Inv now c timeout o acts s H) as [_ (HC & _)].
  unfold InvChan in HC. unfold Done. rewrite HC.
  destruct (err (obj s)); simpl; split; try lia; split; intro E;
    try discriminate; try reflexivity.
  now elim E.
Qed.

(** X6.  [recycle] clears the fields of a task only after [Wait] has
    returned: the fields are the cleared ones exactly when [Run] is done,
    then [Wait] has returned; and as long as [Wait] has not returned, the
    task still points to its context and endpoint and the WaitGroup counts
    one. *)
Theorem recycle_after_Wait (now : Time) (c : context) (timeout : Duration)
    (o : epOutcome) (acts : list action) (s : state) :
  exec acts (newTask now c timeout o) = Some s ->
  (rpc s = RunDone <-> tsk s = cleared) /\
  (rpc s = RunDone -> exists r, wpc s = WaitDone r) /\
  ((forall r, wpc s <> WaitDone r) ->
     ctx (tsk s) = true /\ ep (tsk s) = Some o /\ wg (tsk s) = 1%nat).
Proof.
  intro H. destruct (reach_Inv now c timeout o acts s H) as [HI (_ & HF & _)].
  destruct HI as (_ & HR & _ & HG).
  unfold InvFields in HF. unfold InvRun in HR. unfold InvWg in HG.
  split; [|split].
  - split.
    + intro E. now rewrite E in HF.
    + intro E. rewrite E in HF. destruct (rpc s); trivial;
        destruct HF as [HF _]; discriminate HF.
  - intro E. rewrite E in HR. tauto.
  - intro Hw.
    assert (Hn : rpc s <> RunDone).
    { intro E. rewrite E in HR. destruct HR as [_ [r Hr]]. now elim (Hw r). }
    split; [|split].
    + destruct (rpc s); tauto.
    + destruct (rpc s); tauto.
    + destruct (wpc s); trivial. now elim (Hw r).
Qed.

(** X7.  A recycled task keeps nothing from its use: [newTask] on the task
    that a finished run has put back makes the same task as on a new one. *)
Theorem newTask_reuses_recycled (now : Time) (c : context) (timeout : Duration)
    (o : epOutcome) (acts : list action) (s : state)
    (now' : Time) (c' : context) (timeout' : Duration) (o' : epOutcome) :
  exec acts (newTask now c timeout o) = Some s ->
  rpc s = RunDone ->
  newTaskOn (tsk s) now' c' timeout' o' = newTask now' c' timeout' o' /\
  newTaskOn (tsk s) now' c' timeout' o' = newTaskOn cleared now' c' timeout' o'.
Proof.
  intros H Hd.
  destruct (reach_Inv now c timeout o acts s H) as [_ (_ & HF & _)].
  unfold InvFields in HF. rewrite Hd in HF. rewrite HF. split; reflexivity.
Qed.

Lemma slotOf_nil c o : slotOf c o = nil -> o <> EpBlock -> noError o.
Proof.
  unfold noError. destruct o as [e|v st| | |e| ]; simpl; intros H Hb.
  - left. now rewrite H.
  - destruct (ctxRPCInfo c); discriminate.
  - auto.
  - auto.
  - right. left. now rewrite H.
  - now elim Hb.
Qed.

Lemma step_preCancel a s s' :
  step a s = Some s' -> preCancel (rpc s) = false -> preCancel (rpc s') = false.
Proof.
  intros E Hp. destruct a as [d|e| | |b]; simpl in E.
  - destruct (0 <=? d); [|discriminate]. now injection E as <-.
  - destruct (ctxErr (Context (obj s))); [discriminate|]. now injection E as <-.
  - unfold Run_step in E. destruct (rpc s); try discriminate.
    destruct (wg (tsk s)); [|discriminate]. now injection E as <-.
  - destruct (wpc s) as [ | | | t | [| |] | | | r | r] eqn:W.
    + rewrite (Wait_step_entry s W) in E. now injection E as <-.
    + unfold Wait_step in E. rewrite W in E. now injection E as <-.
    + unfold Wait_step in E. rewrite W in E. now injection E as <-.
    + unfold Wait_step in E. rewrite W in E. discriminate.
    + unfold Wait_step in E. rewrite W in E. now injection E as <-.
    + unfold Wait_step in E. rewrite W in E. now injection E as <-.
    + unfold Wait_step in E. rewrite W in E. now injection E as <-.
    + unfold Wait_step in E. rewrite W in E.
      destruct (Load (task_err (tsk s))); now injection E as <-.
    + unfold Wait_step in E. rewrite W in E. now injection E as <-.
    + unfold Wait_step in E. rewrite W in E. now injection E as <-.
    + unfold Wait_step in E. rewrite W in E. discriminate.
  - apply Select_step_wpc in E. destruct E as (t & _ & _ & ->). exact Hp.
Qed.

Lemma exec_preCancel acts :
  forall s s', exec acts s = Some s' -> preCancel (rpc s) = false ->
               preCancel (rpc s') = false.
Proof.
  induction acts as [|a acts IH]; simpl; intros s s' H Hp.
  - now injection H as <-.
  - destruct (step a s) as [s1|] eqn:E; [|discriminate].
    apply (IH s1 s' H). now apply (step_preCancel a s s1).
Qed.

Lemma Err_nil_cases (p : taskContext) :
  Err p = nil ->
  (err p = nil \/ err p = Some errTaskDone) /\ ctxErr (Context p) = nil.
Proof.
  unfold Err. destruct (err p) as [x|] eqn:E; simpl.
  - destruct (errval_eqb x errTaskDone) eqn:X.
    + apply errval_eqb_errTaskDone in X. subst. auto.
    + discriminate.
  - auto.
Qed.

(** X1.  When [Wait] is entered before the deadline and returns nil, the
    call of the endpoint is over and has left no error for [Run] to store:
    the endpoint has returned nil, or it has ended by a panic with nil or by
    [runtime.Goexit()], which [Run] does not tell from a return of nil; and
    [Run]'s completion is what the context recorded. *)
Theorem Wait_nil_means_no_error (now : Time) (c : context) (timeout : Duration)
    (o : epOutcome) (pre rest : list action) (s0 s : state) :
  exec pre (newTask now c timeout o) = Some s0 ->
  wpc s0 = WaitStart -> dl (obj s0) = 0 \/ clock s0 <= dl (obj s0) ->
  exec (WaitStep :: rest) s0 = Some s ->
  wpc s = WaitReturn nil \/ wpc s = WaitDone nil ->
  noError o /\ preCancel (rpc s) = false /\ err (obj s) = Some errTaskDone.
Proof.
  intros Hpre H0 Hd Hex Hr.
  assert (I0 : Inv c o s0).
  { apply exec_Inv with pre (newTask now c timeout o); [apply Inv_newTask | exact Hpre]. }
  assert (SF : slotFirst (WaitStep :: rest) s0 nil).
  { simpl in Hex. destruct (Wait_step s0) as [s1|] eqn:E; [|discriminate].
    apply (slotFirst_cons WaitStep rest s0 s1 nil E).
    apply (from_select rest s1 s nil); trivial.
    now apply (Wait_entry_atSelect s0 s1). }
  destruct SF as (pre' & post & s1 & A & B & C & D).
  destruct (Load (task_err (tsk s1))) as [e|]; [discriminate D|].
  destruct D as (mid & post' & s2 & D1 & D2 & D3 & D4).
  assert (I2 : Inv c o s2) by (apply exec_Inv with (pre' ++ WaitStep :: mid) s0; assumption).
  assert (Hpost : exec (WaitStep :: post') s2 = Some s).
  { rewrite A, D1 in Hex.
    replace (pre' ++ WaitStep :: mid ++ WaitStep :: post')
      with ((pre' ++ WaitStep :: mid) ++ WaitStep :: post') in Hex
      by (rewrite <- app_assoc; reflexivity).
    rewrite exec_app, D2 in Hex. exact Hex. }
  destruct I2 as (_ & IR & IW & _). unfold InvWait in IW. rewrite D3 in IW.
  symmetry in D4. destruct (Err_nil_cases (obj s2) D4) as [He Hp].
  destruct IW as [[[R1 R2] R3]|[_ [[N1 N2]|N]]].
  - unfold InvRun in IR. rewrite R1 in IR. destruct IR as (_ & _ & Hb).
    split; [now apply slotOf_nil with c|]. split.
    + apply (exec_preCancel _ s2 s Hpost). now rewrite R1.
    + apply (exec_err _ s2 s errTaskDone Hpost R2).
  - destruct He; contradiction.
  - contradiction.
Qed.

Lemma preStore_preCancel r : preStore r = true -> preCancel r = true.
Proof. destruct r; simpl; auto. Qed.

Lemma Err_of_recorded (p : taskContext) :
  err p = ctxErr (Context p) -> Err p = err p.
Proof.
  intro H. unfold Err.
  destruct (error_eqb (err p) nil || error_eqb (err p) (Some errTaskDone));
    [now symmetry | reflexivity].
Qed.

(** X2.  When [Wait] has returned while the endpoint is still running or
    [Run] has not stored its result, the returned error is not nil and is
    the context's [Err()]: the deadline-exceeded error, the deadline then
    being reached, or the error of the caller's context. *)
Theorem Wait_before_Run_stores (now : Time) (c : context) (timeout : Duration)
    (o : epOutcome) (acts : list action) (s : state) (r : error) :
  exec acts (newTask now c timeout o) = Some s ->
  wpc s = WaitReturn r \/ wpc s = WaitDone r ->
  preStore (rpc s) = true ->
  r <> nil /\ Err (obj s) = r /\
  ((r = Some DeadlineExceeded /\ dl (obj s) <> 0 /\ dl (obj s) <= clock s) \/
   r = ctxErr (Context (obj s))).
Proof.
  intros H Hr Hp.
  destruct (reach_Inv now c timeout o acts s H) as [_ (_ & _ & HK)].
  unfold InvCancel in HK.
  assert (K : err (obj s) <> nil /\ WaitCancelled s /\ r = err (obj s)).
  { pose proof (preStore_preCancel _ Hp) as Hc.
    destruct Hr as [Hr|Hr]; rewrite Hr in HK; tauto. }
  destruct K as (Hn & HW & ->).
  split; [exact Hn|].
  destruct HW as [[E D]|[E P]].
  - split; [unfold Err; rewrite E; reflexivity|]. left. split; [exact E | exact D].
  - split; [now apply Err_of_recorded|]. now right.
Qed.

Lemma step_ctxErr_val a s s' x :
  step a s = Some s' -> ctxErr (Context (obj s)) = Some x ->
  ctxErr (Context (obj s')) = Some x.
Proof.
  intros E Hx. destruct a as [d|e| | |b]; simpl in E.
  - destruct (0 <=? d); [|discriminate]. now injection E as <-.
  - rewrite Hx in E. discriminate.
  - now rewrite (Run_step_Context s s' E).
  - now rewrite (Wait_step_Context s s' E).
  - apply Select_step_wpc in E. destruct E as (t & _ & _ & ->). exact Hx.
Qed.

Lemma exec_ctxErr_val acts :
  forall s s' x, exec acts s = Some s' -> ctxErr (Context (obj s)) = Some x ->
                 ctxErr (Context (obj s')) = Some x.
Proof.
  induction acts as [|a acts IH]; simpl; intros s s' x H Hx.
  - now injection H as <-.
  - destruct (step a s) as [s1|] eqn:E; [|discriminate].
    apply (IH s1 s' x H). now apply (step_ctxErr_val a s s1).
Qed.

(** X3.  Once [Wait] has returned, an error that [Err()] of the returned
    context gives is given by it for ever after, whatever [Run], the clock
    and the caller do. *)
Theorem returned_Err_stays (now : Time) (c : context) (timeout : Duration)
    (o : epOutcome) (acts more : list action) (s s' : state) (r : error)
    (x : errval) :
  exec acts (newTask now c timeout o) = Some s ->
  wpc s = WaitReturn r \/ wpc s = WaitDone r ->
  Err (obj s) = Some x ->
  exec more s = Some s' ->
  Err (obj s') = Some x.
Proof.
  intros H Hr Hx Hm.
  destruct (reach_Inv now c timeout o acts s H) as [_ (_ & _ & HK)].
  unfold InvCancel in HK.
  assert (Hn : err (obj s) <> nil) by (destruct Hr as [Hr|Hr]; rewrite Hr in HK; tauto).
  destruct (err (obj s)) as [y|] eqn:Y; [|now elim Hn].
  pose proof (exec_err more s s' y Hm Y) as Y'.
  unfold Err in *. rewrite Y in Hx. rewrite Y'. simpl in *.
  destruct (errval_eqb y errTaskDone).
  - now apply (exec_ctxErr_val more s s').
  - exact Hx.
Qed.

(** ** The pool: dispatch, tickers, workers *)

(** X10.  The period of the tick loop is at least 10 ms; for a positive
    [maxIdle], [maxIdle] periods take at most a tenth of [maxIdleTime], or
    of 100 ms for each worker when that is more; and when [maxIdleTime] is
    at least 100 ms for each worker the period is [maxIdleTime / maxIdle /
    10], rounded down. *)
Theorem tickPeriod_bounds (p : Pool) :
  10 * Millisecond <= tickPeriod p /\
  (0 < maxIdle p ->
     tickPeriod p * maxIdle p * 10 <= Z.max (maxIdleTime p) (100 * Millisecond * maxIdle p)) /\
  (0 < maxIdle p -> 100 * Millisecond * maxIdle p <= maxIdleTime p ->
     tickPeriod p = maxIdleTime p / maxIdle p / 10).
Proof.
  unfold tickPeriod, Millisecond.
  set (T := maxIdleTime p). set (m := maxIdle p). clearbody T m.
  destruct (Z.quot (Z.quot T m) 10 <? 10 * 1000000) eqn:E.
  - apply Z.ltb_lt in E. split; [lia|]. split.
    + intro Hm. lia.
    + intros Hm HT.
      assert (HT0 : 0 <= T) by (clear E; lia).
      rewrite (Z.quot_div_nonneg T m) in E by lia.
      rewrite Z.quot_div_nonneg in E by (try lia; apply Z.div_pos; lia).
      assert (100 * 1000000 <= T / m).
      { apply Z.div_le_lower_bound; lia. }
      assert (10 * 1000000 <= T / m / 10).
      { apply Z.div_le_lower_bound; lia. }
      lia.
  - apply Z.ltb_ge in E. split; [exact E|].
    assert (Hpos : 0 < m -> 0 <= T).
    { intro Hm. destruct (Z.lt_ge_cases T 0) as [Hneg|]; [|assumption].
      assert (Z.quot T m <= 0) by (apply Z.quot_le_upper_bound; lia).
      assert (Z.quot (Z.quot T m) 10 <= 0) by (apply Z.quot_le_upper_bound; lia).
      lia. }
    split.
    + intro Hm. specialize (Hpos Hm).
      rewrite (Z.quot_div_nonneg T m) by lia.
      rewrite Z.quot_div_nonneg by (try lia; apply Z.div_pos; lia).
      assert (A : 10 * (T / m / 10) <= T / m) by (apply Z.mul_div_le; lia).
      assert (B : m * (T / m) <= T) by (apply Z.mul_div_le; lia).
      assert (C : 0 <= T / m) by (apply Z.div_pos; lia).
      assert (D : 0 <= T / m / 10) by (apply Z.div_pos; lia).
      nia.
    + intros Hm HT. specialize (Hpos Hm).
      rewrite (Z.quot_div_nonneg T m) by lia.
      rewrite Z.quot_div_nonneg by (try lia; apply Z.div_pos; lia).
      reflexivity.
Qed.

Lemma tickers_app (l1 l2 : list event) (cur : option nat) (made : list nat) :
  tickers (l1 ++ l2) cur made =
  match tickers l1 cur made with
  | Some (cur', made') => tickers l2 cur' made'
  | None => None
  end.
Proof.
  revert cur made. induction l1 as [|e l1 IH]; intros cur made; simpl; [reflexivity|].
  destruct e as [c0|c0 d| |].
  - destruct cur as [c'|]; [|reflexivity].
    destruct (Nat.eqb c0 c'); [apply IH | reflexivity].
  - destruct cur; [reflexivity|].
    destruct (existsb (Nat.eqb c0) made); [reflexivity | apply IH].
  - apply IH.
  - apply IH.
Qed.

Lemma existsb_eqb_false (c : nat) (made : list nat) :
  (forall x, In x made -> (x < c)%nat) -> existsb (Nat.eqb c) made = false.
Proof.
  intro H. apply not_true_is_false. intro E.
  apply existsb_exists in E. destruct E as (x & Hx & Ex).
  apply Nat.eqb_eq in Ex. subst x. specialize (H c Hx). lia.
Qed.

Lemma createTicker_tickers (p : Pool) (made : list nat) :
  madeUpTo p made ->
  exists made',
    tickers (snd (createTicker p)) (ticker p) made
      = Some (ticker (fst (createTicker p)), made') /\
    madeUpTo (fst (createTicker p)) made'.
Proof.
  intro HM. unfold createTicker. simpl.
  destruct (ticker p) as [c|] eqn:T; simpl.
  - rewrite Nat.eqb_refl. simpl.
    change (existsb _ made) with (existsb (Nat.eqb (S c)) made).
    rewrite existsb_eqb_false.
    + eexists. split; [reflexivity|].
      intros x [<-|Hx]; exists (S c); split; trivial.
      destruct (HM x Hx) as (c' & Hc & Hle). rewrite T in Hc. injection Hc as <-. lia.
    + intros x Hx. destruct (HM x Hx) as (c' & Hc & Hle). rewrite T in Hc. injection Hc as <-. lia.
  - destruct made as [|x made].
    + simpl. eexists. split; [reflexivity|].
      intros x [<-|[]]. exists O. auto.
    + destruct (HM x (or_introl eq_refl)) as (c' & Hc & _). rewrite T in Hc. discriminate.
Qed.

Lemma set_size_madeUpTo (p : Pool) (n : Z) (made : list nat) :
  madeUpTo p made -> madeUpTo (set_size p n) made.
Proof. exact (fun H => H). Qed.

Lemma RunTask_tickers (idle : bool) (p : Pool) (made : list nat) :
  madeUpTo p made ->
  exists made',
    tickers (snd (RunTask idle p)) (ticker p) made
      = Some (ticker (snd (fst (RunTask idle p))), made') /\
    madeUpTo (snd (fst (RunTask idle p))) made'.
Proof.
  intro HM. unfold RunTask. destruct idle; simpl.
  - exists made. auto.
  - unfold createWorker, AddInt32. simpl.
    destruct (wrap32 (size p + 1) <? maxIdle p); simpl.
    + destruct (wrap32 (size p + 1) =? 1).
      * destruct (createTicker_tickers (set_size p (wrap32 (size p + 1))) made HM)
          as (made' & A & B).
        destruct (createTicker (set_size p (wrap32 (size p + 1)))) as [p2 ev].
        simpl in *. exists made'. rewrite tickers_app, A. simpl. auto.
      * simpl. exists made. auto.
    + simpl. exists made. auto.
Qed.

Lemma poolEvents_tickers (ops : list poolOp) :
  forall p made,
    madeUpTo p made ->
    exists made',
      tickers (poolEvents ops p) (ticker p) made
        = Some (ticker (poolRun ops p), made') /\
      madeUpTo (poolRun ops p) made'.
Proof.
  induction ops as [|o ops IH]; intros p made HM.
  - exists made. auto.
  - destruct o as [idle|].
    + destruct (RunTask_tickers idle p made HM) as (m1 & A & B).
      destruct (IH _ m1 B) as (m2 & C & D).
      exists m2. simpl. rewrite tickers_app, A. auto.
    + simpl.
      assert (HL : madeUpTo (poolStep p Leave) made /\ ticker (poolStep p Leave) = ticker p).
      { simpl. destruct (0 <? size p); auto. }
      destruct HL as [HL HT].
      destruct (IH _ made HL) as (m2 & C & D).
      exists m2. simpl in *. rewrite <- HT. auto.
Qed.

(** X9.  Over every history of submissions and departures of a pool made by
    [New], the ticker channels are used in order: a tick loop is started on
    a new channel and only when no other is left unstopped, and the channel
    closed is always the one of the running loop, so none is closed twice;
    at the end the [ticker] field is the channel of the loop that is not
    stopped. *)
Theorem tickers_closed_before_restart (m : Z) (d : Duration) (ops : list poolOp) :
  exists made,
    tickers (poolEvents ops (New m d)) None []
    = Some (ticker (poolRun ops (New m d)), made).
Proof.
  destruct (poolEvents_tickers ops (New m d) []) as (made & A & _).
  - intros x [].
  - exists made. exact A.
Qed.

(** X8.  [RunTask] gets every task run exactly once: handed to an idle
    worker, nothing is started and the pool is unchanged; otherwise exactly
    one of a new worker and a detached [go t.Run()] is started. *)
Theorem RunTask_runs_once (idle : bool) (p : Pool) :
  let '(how, p', ev) := RunTask idle p in
  List.length (filter startsRun ev) = (if idle then 0 else 1)%nat /\
  (how = HandOff <-> idle = true) /\
  (how = NewWorker <-> In GoWorker ev) /\
  (how = Detached <-> In GoRun ev) /\
  (idle = true -> p' = p /\ ev = []).
Proof.
  unfold RunTask. destruct idle.
  - simpl. repeat split; try discriminate; try tauto.
  - unfold createWorker, AddInt32. simpl.
    destruct (wrap32 (size p + 1) <? maxIdle p); simpl.
    + destruct (wrap32 (size p + 1) =? 1); simpl.
      * unfold createTicker. simpl.
        destruct (ticker p); simpl; repeat split; try discriminate; auto;
          try (intros [H|[H|[H|[]]]]; discriminate H);
          try (intros [H|[H|[]]]; discriminate H).
      * repeat split; try discriminate; auto.
        intros [H|[]]; discriminate H.
    + repeat split; try discriminate; auto.
      intros [H|[]]; discriminate H.
Qed.

(** X11.  A worker leaves its loop only on a noop received more than
    [maxIdleTime] after it was last active, having run every task received
    before; a worker that has not left has run all the tasks it received. *)
Theorem workerLoop_idle_exit (p : Pool) (rs : list received) :
  forall (lastactive : Time) (n : nat) (la : Time) (gone : bool),
    workerLoop p lastactive rs = (n, la, gone) ->
    if gone then
      exists pre now post,
        rs = pre ++ RecvNoop now :: post /\
        n = List.length (filter isTask pre) /\
        la = lastDone lastactive pre /\
        maxIdleTime p < now - la
    else
      n = List.length (filter isTask rs) /\ la = lastDone lastactive rs.
Proof.
  induction rs as [|r rs IH]; intros lastactive n la gone H.
  - simpl in H. injection H as <- <- <-. auto.
  - destruct r as [now|done]; simpl in H.
    + unfold workerLeaves in H. simpl in H.
      destruct (maxIdleTime p <? now - lastactive) eqn:E.
      * injection H as <- <- <-.
        exists [], now, rs. apply Z.ltb_lt in E. auto.
      * specialize (IH lastactive n la gone H).
        destruct gone.
        -- destruct IH as (pre & now' & post & A & B & C & D).
           exists (RecvNoop now :: pre), now', post.
           rewrite A. auto.
        -- exact IH.
    + destruct (workerLoop p done rs) as [[n1 la1] g1] eqn:W.
      injection H as <- <- <-.
      specialize (IH done n1 la1 g1 W).
      destruct g1.
      * destruct IH as (pre & now' & post & A & B & C & D).
        exists (RecvTask done :: pre), now', post.
        rewrite A. simpl. rewrite B. auto.
      * simpl. destruct IH as [A B]. rewrite A. auto.
Qed.

(** ** The protoc plugin and the environment switch *)

Lemma take_app (k r : string) : take (String.length k) (k ++ r) = k.
Proof. induction k as [|c k IH]; simpl; [now destruct r | now rewrite IH]. Qed.

Lemma drop_app (k r : string) : drop (String.length k) (k ++ r) = r.
Proof. induction k as [|c k IH]; simpl; [now destruct r | exact IH]. Qed.

Lemma Index_unfold (s sub : string) :
  Index s sub =
  if HasPrefix s sub then 0
  else match s with
       | EmptyString => -1
       | String _ s' => if Index s' sub <? 0 then -1 else Index s' sub + 1
       end.
Proof. destruct s; reflexivity. Qed.

Lemma Index_ge (s sub : string) : -1 <= Index s sub.
Proof.
  induction s as [|c s IH]; rewrite Index_unfold.
  - destruct (HasPrefix "" sub); lia.
  - destruct (HasPrefix (String c s) sub); [lia|].
    destruct (Index s sub <? 0) eqn:E; [lia|]. apply Z.ltb_ge in E. lia.
Qed.

Lemma Index_byte_cons (c d : ascii) (s : string) :
  Index (String d s) (String c "") =
  if Ascii.eqb c d then 0
  else if Index s (String c "") <? 0 then -1 else Index s (String c "") + 1.
Proof.
  rewrite Index_unfold. simpl HasPrefix.
  destruct (Ascii.eqb c d); simpl; [now destruct s|reflexivity].
Qed.

Lemma Index_byte_app (c : ascii) (k r : string) :
  Index k (String c "") < 0 ->
  Index (k ++ String c r) (String c "") = Z.of_nat (String.length k).
Proof.
  induction k as [|d k IH]; intro H.
  - simpl. rewrite Ascii.eqb_refl. now destruct r.
  - rewrite Index_byte_cons in H.
    change ((String d k ++ String c r)%string) with (String d (k ++ String c r)).
    rewrite Index_byte_cons.
    destruct (Ascii.eqb c d); [lia|].
    destruct (Index k (String c "") <? 0) eqn:E.
    + apply Z.ltb_lt in E. rewrite (IH E).
      destruct (Z.of_nat (String.length k) <? 0) eqn:F; [apply Z.ltb_lt in F; lia|].
      simpl String.length. lia.
    + pose proof (Index_ge k (String c "")). apply Z.ltb_ge in E. lia.
Qed.

Lemma Index_byte_absent_app (c : ascii) (k r : string) :
  Index k (String c "") < 0 -> Index r (String c "") < 0 ->
  Index (k ++ r) (String c "") < 0.
Proof.
  induction k as [|d k IH]; intros Hk Hr; [exact Hr|].
  rewrite Index_byte_cons in Hk.
  change ((String d k ++ r)%string) with (String d (k ++ r)).
  rewrite Index_byte_cons.
  destruct (Ascii.eqb c d); [lia|].
  destruct (Index k (String c "") <? 0) eqn:E.
  - apply Z.ltb_lt in E. specialize (IH E Hr).
    apply Z.ltb_lt in IH. rewrite IH. lia.
  - pose proof (Index_ge k (String c "")). apply Z.ltb_ge in E. lia.
Qed.

(** No [c] before the first [c]. *)
Lemma Index_byte_take (c : ascii) (s : string) :
  0 <= Index s (String c "") ->
  Index (take (Z.to_nat (Index s (String c ""))) s) (String c "") < 0 /\
  (Z.to_nat (Index s (String c "")) < String.length s)%nat.
Proof.
  induction s as [|d s IH]; intro H.
  - simpl in H. lia.
  - rewrite Index_byte_cons in *.
    destruct (Ascii.eqb c d) eqn:E.
    + simpl. split; lia.
    + destruct (Index s (String c "") <? 0) eqn:F; [lia|].
      apply Z.ltb_ge in F. destruct (IH F) as [A B].
      replace (Z.to_nat (Index s (String c "") + 1))
        with (S (Z.to_nat (Index s (String c "")))) by lia.
      simpl take. rewrite Index_byte_cons, E.
      apply Z.ltb_lt in A. rewrite A. simpl String.length. split; lia.
Qed.

Lemma Index_byte_drop1 (c d : ascii) (s : string) :
  Index (String d s) (String c "") < 0 -> Index s (String c "") < 0.
Proof.
  rewrite Index_byte_cons. destruct (Ascii.eqb c d); [lia|].
  destruct (Index s (String c "") <? 0) eqn:E; [now apply Z.ltb_lt in E|].
  pose proof (Index_ge s (String c "")). apply Z.ltb_ge in E. lia.
Qed.

Lemma drop_S_app (k : string) (c : ascii) (r : string) :
  drop (S (String.length k)) (k ++ String c r) = r.
Proof. induction k as [|d k IH]; simpl; [reflexivity | exact IH]. Qed.

Lemma M_not_eq : Ascii.eqb "=" "M" = false.
Proof. reflexivity. Qed.

Lemma parseM_entry_M (po' : string) :
  parseM_entry (String "M" po') =
  let i := Index po' "=" in
  if i <? 0 then None
  else
    let val := drop (S (Z.to_nat i)) po' in
    if String.eqb val "" then None
    else Some (take (Z.to_nat i) po',
               if 0 <=? Index val ";" then take (Z.to_nat (Index val ";")) val else val).
Proof.
  unfold parseM_entry. rewrite Ascii.eqb_refl. simpl negb. cbv iota.
  rewrite Index_byte_cons, M_not_eq.
  pose proof (Index_ge po' "=") as G.
  cbv zeta.
  destruct (Index po' "=" <? 0) eqn:E; [reflexivity|].
  apply Z.ltb_ge in E.
  destruct (Index po' "=" + 1 <? 0) eqn:F; [apply Z.ltb_lt in F; lia|].
  unfold Slice, SliceFrom, SliceTo.
  replace (Z.to_nat (Index po' "=" + 1 - 1)) with (Z.to_nat (Index po' "=")) by lia.
  replace (Z.to_nat (Index po' "=" + 1 + 1)) with (S (S (Z.to_nat (Index po' "=")))) by lia.
  change (Z.to_nat 1) with 1%nat.
  reflexivity.
Qed.

Lemma parseM_entry_roundtrip (key val : string) :
  Index key "=" < 0 -> Index val ";" < 0 ->
  (val <> EmptyString ->
     parseM_entry ("M" ++ key ++ "=" ++ val) = Some (key, val)) /\
  (forall alias,
     parseM_entry ("M" ++ key ++ "=" ++ val ++ ";" ++ alias) = Some (key, val)).
Proof.
  intros Hk Hv.
  assert (G : forall rest,
             parseM_entry ("M" ++ key ++ "=" ++ rest) =
             if String.eqb rest "" then None
             else Some (key, if 0 <=? Index rest ";"
                             then take (Z.to_nat (Index rest ";")) rest else rest)).
  { intro rest.
    change (("M" ++ key ++ "=" ++ rest)%string) with (String "M" (key ++ String "=" rest)).
    rewrite parseM_entry_M. cbv zeta.
    rewrite (Index_byte_app "=" key rest Hk).
    destruct (Z.of_nat (String.length key) <? 0) eqn:E; [apply Z.ltb_lt in E; lia|].
    rewrite Nat2Z.id, drop_S_app, take_app. reflexivity. }
  split.
  - intro Hne. rewrite G.
    destruct (String.eqb val "") eqn:E; [apply String.eqb_eq in E; contradiction|].
    destruct (0 <=? Index val ";") eqn:F; [apply Z.leb_le in F; lia | reflexivity].
  - intro alias. rewrite G.
    change ((val ++ ";" ++ alias)%string) with ((val ++ String ";" alias)%string).
    destruct (String.eqb (val ++ String ";" alias) "") eqn:E.
    + apply String.eqb_eq in E. destruct val; discriminate E.
    + rewrite (Index_byte_app ";" val alias Hv).
      destruct (0 <=? Z.of_nat (String.length val)) eqn:F; [|apply Z.leb_gt in F; lia].
      now rewrite Nat2Z.id, take_app.
Qed.

Lemma parseM_snoc (opts : list string) (po : string) :
  parseM (opts ++ [po]) =
  match parseM_entry po with
  | Some (key, val) => mapSet key val (parseM opts)
  | None => parseM opts
  end.
Proof. unfold parseM. rewrite fold_left_app. reflexivity. Qed.

(** X12.  An option [M<key>=<val>], with or without [;<alias>] after it,
    whose key has no [=] and whose value is not empty and has no [;], makes
    [parseM] record [val] for [key], replacing what earlier options recorded
    for it and leaving the other keys as they were. *)
Theorem parseM_records (opts : list string) (key val alias : string) :
  Index key "=" < 0 -> Index val ";" < 0 -> val <> EmptyString ->
  let po1 := ("M" ++ key ++ "=" ++ val)%string in
  let po2 := ("M" ++ key ++ "=" ++ val ++ ";" ++ alias)%string in
  mapGet key (parseM (opts ++ [po1])) = Some val /\
  mapGet key (parseM (opts ++ [po2])) = Some val /\
  (forall k, k <> key ->
     mapGet k (parseM (opts ++ [po1])) = mapGet k (parseM opts) /\
     mapGet k (parseM (opts ++ [po2])) = mapGet k (parseM opts)).
Proof.
  intros Hk Hv Hne po1 po2.
  destruct (parseM_entry_roundtrip key val Hk Hv) as [R1 R2].
  specialize (R1 Hne). specialize (R2 alias).
  subst po1 po2. rewrite !parseM_snoc, R1, R2. simpl.
  rewrite String.eqb_refl. repeat split; trivial;
    (destruct (String.eqb key k) eqn:E;
     [apply String.eqb_eq in E; now elim H | reflexivity]).
Qed.

Lemma parseM_entry_shape (po k v : string) :
  parseM_entry po = Some (k, v) ->
  firstIs "M" po = true /\ Index k "=" < 0 /\ Index v ";" < 0.
Proof.
  destruct po as [|c po']; [discriminate|].
  destruct (Ascii.eqb c "M") eqn:C.
  - apply Ascii.eqb_eq in C. subst c. rewrite parseM_entry_M. cbv zeta.
    destruct (Index po' "=" <? 0) eqn:E; [discriminate|]. apply Z.ltb_ge in E.
    destruct (String.eqb _ ""); [discriminate|].
    intro H. injection H as <- <-.
    split; [reflexivity|]. split.
    + apply (Index_byte_take "=" po' E).
    + destruct (0 <=? Index _ ";") eqn:F.
      * apply Z.leb_le in F. apply (Index_byte_take ";" _ F).
      * now apply Z.leb_gt in F.
  - unfold parseM_entry. rewrite C. discriminate.
Qed.

Lemma mapGet_In (k v : string) (m : importPaths) :
  mapGet k m = Some v -> In (k, v) m.
Proof.
  induction m as [|[k' v'] m IH]; simpl; [discriminate|].
  destruct (String.eqb k' k) eqn:E.
  - apply String.eqb_eq in E. intro H. injection H as ->. subst. now left.
  - intro H. right. now apply IH.
Qed.

Lemma parseM_In (opts : list string) (k v : string) :
  In (k, v) (parseM opts) -> exists po, In po opts /\ parseM_entry po = Some (k, v).
Proof.
  induction opts as [|po opts IH] using rev_ind; [intros []|].
  rewrite parseM_snoc.
  destruct (parseM_entry po) as [[k' v']|] eqn:E.
  - intros [H|H].
    + injection H as -> ->. exists po. split; [apply in_or_app; right; now left | exact E].
    + destruct (IH H) as (po' & A & B). exists po'. split; [apply in_or_app; now left | exact B].
  - intro H. destruct (IH H) as (po' & A & B).
    exists po'. split; [apply in_or_app; now left | exact B].
Qed.

(** X13.  Whatever [parseM] records comes from an option that starts with M:
    the key has no [=], the value no [;]. *)
Theorem parseM_shape (opts : list string) (k v : string) :
  mapGet k (parseM opts) = Some v ->
  Index k "=" < 0 /\ Index v ";" < 0 /\
  exists po, In po opts /\ firstIs "M" po = true /\ parseM_entry po = Some (k, v).
Proof.
  intro H. apply mapGet_In in H. apply parseM_In in H.
  destruct H as (po & A & B).
  destruct (parseM_entry_shape po k v B) as (C & D & E).
  split; [exact D|]. split; [exact E|]. exists po. auto.
Qed.

Lemma length_app_underscore (name : string) :
  String.length (name ++ "_") = S (String.length name).
Proof. induction name as [|c n IH]; simpl; [reflexivity | now rewrite IH]. Qed.

Lemma append_nil_r (s : string) : (s ++ "")%string = s.
Proof. induction s as [|c s IH]; simpl; [reflexivity | now rewrite IH]. Qed.

Lemma append_assoc (a b c : string) : ((a ++ b) ++ c)%string = (a ++ b ++ c)%string.
Proof. induction a as [|x a IH]; simpl; [reflexivity | now rewrite IH]. Qed.

Lemma filter_length_sub {A : Type} (p q : A -> bool) (l : list A) :
  (forall x, q x = true -> p x = true) ->
  (List.length (filter q l) <= List.length (filter p l))%nat /\
  ((exists x, In x l /\ p x = true /\ q x = false) ->
   (List.length (filter q l) < List.length (filter p l))%nat).
Proof.
  intro Hqp. induction l as [|a l [IH1 IH2]]; simpl.
  - split; [lia|]. intros (x & [] & _).
  - destruct (q a) eqn:Q.
    + rewrite (Hqp a Q). simpl. split; [lia|].
      intros (x & [<-|Hx] & Px & Qx); [congruence|].
      assert (H : exists y, In y l /\ p y = true /\ q y = false) by eauto.
      specialize (IH2 H). lia.
    + destruct (p a) eqn:P; simpl.
      * split; lia.
      * split; [lia|].
        intros (x & [<-|Hx] & Px & Qx); [congruence|].
        assert (H : exists y, In y l /\ p y = true /\ q y = false) by eauto.
        specialize (IH2 H). lia.
Qed.

Lemma longEnough_lt (name : string) (svcs : list ServiceInfo) :
  hasName name svcs = true ->
  (List.length (longEnough (name ++ "_") svcs) < List.length (longEnough name svcs))%nat.
Proof.
  intro H. unfold hasName in H. apply existsb_exists in H.
  destruct H as (svc & Hin & E). apply String.eqb_eq in E.
  unfold longEnough. apply filter_length_sub.
  - intros x Hx. rewrite length_app_underscore in Hx.
    apply Nat.leb_le in Hx. apply Nat.leb_le. lia.
  - exists svc. split; [exact Hin|]. rewrite E, length_app_underscore. split.
    + apply Nat.leb_refl.
    + apply Nat.leb_gt. lia.
Qed.

Lemma hasName_longEnough (name : string) (svcs : list ServiceInfo) :
  hasName name svcs = true -> (0 < List.length (longEnough name svcs))%nat.
Proof.
  intro H. pose proof (longEnough_lt name svcs H). lia.
Qed.

Lemma getCombineServiceName_fuel_ok (svcs : list ServiceInfo) (fuel : nat) :
  forall name,
    (List.length (longEnough name svcs) <= fuel)%nat ->
    exists k,
      (k <= fuel)%nat /\
      getCombineServiceName_fuel fuel name svcs = Some (name ++ underscores k)%string /\
      hasName (name ++ underscores k) svcs = false /\
      forall j, (j < k)%nat -> hasName (name ++ underscores j) svcs = true.
Proof.
  induction fuel as [|fuel IH]; intros name Hm.
  - destruct (hasName name svcs) eqn:E.
    + pose proof (hasName_longEnough name svcs E). lia.
    + exists O. simpl. rewrite E, append_nil_r. repeat split; trivial. lia.
  - destruct (hasName name svcs) eqn:E.
    + pose proof (longEnough_lt name svcs E) as Hlt.
      destruct (IH (name ++ "_")%string ltac:(lia)) as (k & Hk & A & B & C).
      exists (S k). simpl. rewrite E.
      change (String "_" (underscores k)) with ("_" ++ underscores k)%string.
      rewrite <- append_assoc.
      split; [lia|]. split; [exact A|]. split; [exact B|].
      intros [|j] Hj.
      * simpl. now rewrite append_nil_r.
      * simpl. change (String "_" (underscores j)) with ("_" ++ underscores j)%string.
        rewrite <- append_assoc. apply C. lia.
    + exists O. simpl. rewrite E, append_nil_r. repeat split; trivial; lia.
Qed.

(** X14.  [getCombineServiceName] returns, after at most as many calls as
    there are services, [name] followed by the least number of underscores
    that makes a name no service has. *)
Theorem getCombineServiceName_fresh (name : string) (svcs : list ServiceInfo) :
  exists k,
    (k <= List.length svcs)%nat /\
    getCombineServiceName name svcs = Some (name ++ underscores k)%string /\
    hasName (name ++ underscores k) svcs = false /\
    forall j, (j < k)%nat -> hasName (name ++ underscores j) svcs = true.
Proof.
  apply getCombineServiceName_fuel_ok.
  unfold longEnough. apply filter_length_le.
Qed.

Lemma eqb_empty (s : string) : String.eqb s "" = true <-> s = EmptyString.
Proof. apply String.eqb_eq. Qed.

Lemma trimRightByte_last (s : string) (c : ascii) : lastIs c (trimRightByte s c) = false.
Proof.
  induction s as [|d s IH]; simpl; [reflexivity|].
  destruct (String.eqb (trimRightByte s c) "") eqn:E.
  - apply eqb_empty in E. rewrite E. simpl.
    destruct (Ascii.eqb d c) eqn:D; simpl; [reflexivity | exact D].
  - simpl. destruct (trimRightByte s c); [discriminate E | exact IH].
Qed.

Lemma trimRightByte_id (s : string) (c : ascii) :
  lastIs c s = false -> trimRightByte s c = s.
Proof.
  induction s as [|d s IH]; simpl; [reflexivity|].
  destruct s as [|e s].
  - simpl. intros ->. reflexivity.
  - intro H. rewrite (IH H). reflexivity.
Qed.

Lemma trimRightByte_empty (s : string) (c : ascii) :
  trimRightByte s c = EmptyString <-> allBytes c s = true.
Proof.
  induction s as [|d s IH]; simpl; [tauto|].
  destruct (String.eqb (trimRightByte s c) "") eqn:E.
  - apply eqb_empty in E. destruct (Ascii.eqb d c); simpl.
    + split; [intros _; now apply IH | reflexivity].
    + split; discriminate.
  - simpl. split; [discriminate|]. intro H. apply andb_true_iff in H.
    destruct H as [_ H]. apply IH in H. rewrite H in E. discriminate.
Qed.

Lemma trimRightByte_snoc (s : string) (c : ascii) :
  trimRightByte (s ++ String c "") c = trimRightByte s c.
Proof.
  induction s as [|d s IH]; simpl.
  - now rewrite Ascii.eqb_refl.
  - now rewrite IH.
Qed.

Lemma trimLeftByte_first (s : string) (c : ascii) : firstIs c (trimLeftByte s c) = false.
Proof.
  induction s as [|d s IH]; simpl; [reflexivity|].
  destruct (Ascii.eqb d c) eqn:D; [exact IH | simpl; exact D].
Qed.

Lemma trimLeftByte_id (s : string) (c : ascii) :
  firstIs c s = false -> trimLeftByte s c = s.
Proof. destruct s as [|d s]; simpl; [reflexivity|]. now intros ->. Qed.

Lemma trimLeftByte_empty (s : string) (c : ascii) :
  trimLeftByte s c = EmptyString <-> allBytes c s = true.
Proof.
  induction s as [|d s IH]; simpl; [tauto|].
  destruct (Ascii.eqb d c); simpl; [exact IH | split; discriminate].
Qed.

Lemma trimLeftByte_last (s : string) (c : ascii) :
  lastIs c s = false -> lastIs c (trimLeftByte s c) = false.
Proof.
  induction s as [|d s IH]; [reflexivity|].
  intro H. simpl trimLeftByte.
  destruct (Ascii.eqb d c) eqn:D; [|exact H].
  destruct s as [|e s]; [reflexivity|]. apply IH. exact H.
Qed.

Lemma allBytes_last (s : string) (c : ascii) :
  allBytes c s = true -> lastIs c s = false -> s = EmptyString.
Proof.
  induction s as [|d s IH]; [reflexivity|]. simpl.
  intros H L. apply andb_true_iff in H. destruct H as [D A].
  destruct s as [|e s]; [congruence|].
  specialize (IH A L). discriminate.
Qed.

(** X15.  [fixImport] returns a path that neither starts nor ends with a
    double quote; applying it twice is applying it once; the result is empty
    exactly when the path has nothing but quotes; a path without quotes at
    its ends is left as it is and is what its quoted form gives. *)
Theorem fixImport_unquotes (p : string) :
  firstIs quote (fixImport p) = false /\
  lastIs quote (fixImport p) = false /\
  fixImport (fixImport p) = fixImport p /\
  (fixImport p = EmptyString <-> allBytes quote p = true) /\
  (firstIs quote p = false -> lastIs quote p = false ->
     fixImport p = p /\
     fixImport (String quote (p ++ String quote "")) = p).
Proof.
  unfold fixImport.
  assert (F : firstIs quote (trimLeftByte (trimRightByte p quote) quote) = false)
    by apply trimLeftByte_first.
  assert (L : lastIs quote (trimLeftByte (trimRightByte p quote) quote) = false)
    by (apply trimLeftByte_last, trimRightByte_last).
  split; [exact F|]. split; [exact L|]. split; [|split].
  - rewrite (trimRightByte_id _ quote L). now apply trimLeftByte_id.
  - rewrite trimLeftByte_empty. split.
    + intro A. apply trimRightByte_empty.
      apply (allBytes_last _ quote A). apply trimRightByte_last.
    + intro A. apply trimRightByte_empty in A. now rewrite A.
  - intros Hf Hl. split.
    + rewrite (trimRightByte_id p quote Hl). now apply trimLeftByte_id.
    + simpl trimRightByte. rewrite trimRightByte_snoc, (trimRightByte_id p quote Hl).
      rewrite andb_true_r.
      destruct (String.eqb p "") eqn:E.
      * apply eqb_empty in E. now subst p.
      * simpl trimLeftByte. rewrite ?Ascii.eqb_refl. now apply trimLeftByte_id.
Qed.

(** X16.  [UseProtoc] is true exactly when the variable is not set or empty,
    or is one of 1, t, T, TRUE, true, True. *)
Theorem UseProtoc_values (v : string) :
  UseProtoc v = true <->
  In v [""; "1"; "t"; "T"; "TRUE"; "true"; "True"]%string.
Proof.
  unfold UseProtoc, ParseBool. split.
  - intro H.
    destruct (String.eqb v "") eqn:E0; [apply String.eqb_eq in E0; subst; simpl; auto|].
    destruct (String.eqb v "1") eqn:E1; [apply String.eqb_eq in E1; subst; simpl; auto|].
    destruct (String.eqb v "t") eqn:E2; [apply String.eqb_eq in E2; subst; simpl; auto|].
    destruct (String.eqb v "T") eqn:E3; [apply String.eqb_eq in E3; subst; simpl; auto|].
    destruct (String.eqb v "TRUE") eqn:E4;
      [apply String.eqb_eq in E4; subst; simpl; auto 10|].
    destruct (String.eqb v "true") eqn:E5;
      [apply String.eqb_eq in E5; subst; simpl; auto 10|].
    destruct (String.eqb v "True") eqn:E6;
      [apply String.eqb_eq in E6; subst; simpl; auto 10|].
    simpl in H.
    destruct (String.eqb v "0" || String.eqb v "f" || String.eqb v "F"
              || String.eqb v "FALSE" || String.eqb v "false" || String.eqb v "False");
      discriminate H.
  - intros [<-|[<-|[<-|[<-|[<-|[<-|[<-|[]]]]]]]]; reflexivity.
Qed.

(** ** Examples *)

Lemma task_completes_witness :
  exists s s' r,
    exec scheduleTimeout taskTimeout = Some s /\ rpc s = RunStart /\
    exec (scheduleTimeout ++ completion 10 s) taskTimeout = Some s' /\
    rpc s' = RunDone /\ wpc s' = WaitDone r /\
    Forall ownStep (completion 10 s).
Proof.
  eexists.
  destruct (task_completes 0 Background (50 * Millisecond) (EpAwaitDone (Some epError))
              scheduleTimeout _ ltac:(vm_compute; reflexivity)
              ltac:(right; vm_compute; reflexivity))
    as (s' & r & A & B & C & _ & _ & F).
  exists s', r. split; [vm_compute; reflexivity|]. split; [reflexivity|].
  split; [exact A|]. split; [exact B|]. split; [exact C | exact F].
Defined.

Lemma Wait_returns_at_deadline_witness :
  exists s s1 s' r,
    exec [WaitStep] taskBlock = Some s /\
    step (Tick (untilDeadline s)) s = Some s1 /\
    exec ([WaitStep] ++ Tick (untilDeadline s) :: waitOut 6 s1) taskBlock = Some s' /\
    wpc s' = WaitDone r /\ rpc s' = RunStart.
Proof.
  eexists.
  destruct (Wait_returns_at_deadline 0 Background (50 * Millisecond) EpBlock
              [WaitStep] _ ltac:(vm_compute; reflexivity)
              ltac:(vm_compute; discriminate))
    as (s1 & s' & r & E & A & B & C & _).
  exists s1, s', r. split; [vm_compute; reflexivity|].
  split; [exact E|]. split; [exact A|]. split; [exact B | exact C].
Defined.

Lemma task_completes_by_deadline_witness :
  exists s1 s2 s' r,
    step (Tick (untilDeadline taskTimeout)) taskTimeout = Some s1 /\
    exec (waitOut 6 s1) s1 = Some s2 /\ Done (obj s2) = true /\
    exec (Tick (untilDeadline taskTimeout) :: waitOut 6 s1 ++ completion 10 s2)
      taskTimeout = Some s' /\
    rpc s' = RunDone /\ wpc s' = WaitDone r /\ tsk s' = cleared.
Proof.
  destruct (task_completes_by_deadline 0 Background (50 * Millisecond)
              (EpAwaitDone (Some epError)) [] _ eq_refl
              ltac:(vm_compute; discriminate) ltac:(discriminate))
    as (s1 & s2 & s' & r & E & A & _ & G & F & B & C & D & _).
  exists s1, s2, s', r.
  split; [exact E|]. split; [exact A|]. split; [exact G|]. split; [exact F|].
  split; [exact B|]. split; [exact C | exact D].
Defined.

Lemma endpoint_awaits_without_deadline_witness :
  exists s,
    exec [WaitStep; Tick Second] taskNoDeadline = Some s /\
    hung nil s /\ Run_step s = None /\ Select_step BrDone s = None.
Proof.
  eexists. split; [vm_compute; reflexivity|].
  destruct (endpoint_awaits_without_deadline 0 Background 0 nil
              [WaitStep; Tick Second] _ eq_refl ltac:(vm_compute; reflexivity)
              eq_refl) as (H1 & H2 & H3 & _).
  split; [exact H1|]. split; [exact H2 | exact (H3 BrDone)].
Defined.

Lemma Done_iff_err_witness :
  exists s, exec scheduleReturnErr taskReturnErr = Some s /\
            Done (obj s) = true /\ err (obj s) <> nil.
Proof.
  eexists. split; [vm_compute; reflexivity|].
  destruct (Done_iff_err 0 Background (20 * Millisecond) (EpReturn (Some epError))
              scheduleReturnErr _ ltac:(vm_compute; reflexivity)) as [[_ H] _].
  split; [reflexivity|]. discriminate.
Defined.

Lemma recycle_after_Wait_witness :
  exists s, exec scheduleReturnErr taskReturnErr = Some s /\
            rpc s = RunDone /\ tsk s = cleared /\ exists r, wpc s = WaitDone r.
Proof.
  eexists. split; [vm_compute; reflexivity|].
  destruct (recycle_after_Wait 0 Background (20 * Millisecond) (EpReturn (Some epError))
              scheduleReturnErr _ ltac:(vm_compute; reflexivity)) as [[H1 _] [H2 _]].
  split; [reflexivity|]. split; [exact (H1 eq_refl) | exact (H2 eq_refl)].
Defined.

Lemma newTask_reuses_recycled_witness :
  exists s, exec scheduleReturnErr taskReturnErr = Some s /\
            newTaskOn (tsk s) 7 Background Second (EpReturn nil)
            = newTask 7 Background Second (EpReturn nil).
Proof.
  eexists. split; [vm_compute; reflexivity|].
  exact (proj1 (newTask_reuses_recycled 0 Background (20 * Millisecond)
                  (EpReturn (Some epError)) scheduleReturnErr _
                  7 Background Second (EpReturn nil)
                  ltac:(vm_compute; reflexivity) eq_refl)).
Defined.

Lemma Wait_nil_means_no_error_witness :
  exists s0 s,
    exec [RunStep; RunStep; RunStep] taskOk = Some s0 /\
    exec [WaitStep; Select BrDone; WaitStep; WaitStep; WaitStep; WaitStep] s0 = Some s /\
    wpc s = WaitDone nil /\ noError (EpReturn nil) /\
    preCancel (rpc s) = false /\ err (obj s) = Some errTaskDone.
Proof.
  eexists. eexists. split; [vm_compute; reflexivity|].
  split; [vm_compute; reflexivity|]. split; [reflexivity|].
  refine (Wait_nil_means_no_error 0 Background (20 * Millisecond) (EpReturn nil)
            [RunStep; RunStep; RunStep]
            [Select BrDone; WaitStep; WaitStep; WaitStep; WaitStep] _ _ _ _ _ _ _).
  - vm_compute; reflexivity.
  - reflexivity.
  - right. vm_compute. discriminate.
  - vm_compute; reflexivity.
  - right. reflexivity.
Defined.

Lemma Wait_before_Run_stores_witness :
  exists s, exec scheduleTimeout taskTimeout = Some s /\
            wpc s = WaitDone (Some DeadlineExceeded) /\ rpc s = RunStart /\
            Err (obj s) = Some DeadlineExceeded.
Proof.
  eexists. split; [vm_compute; reflexivity|].
  split; [reflexivity|]. split; [reflexivity|].
  refine (proj1 (proj2 (Wait_before_Run_stores 0 Background (50 * Millisecond)
                          (EpAwaitDone (Some epError)) scheduleTimeout _
                          (Some DeadlineExceeded) _ _ _))).
  - vm_compute; reflexivity.
  - right. reflexivity.
  - reflexivity.
Defined.

Lemma returned_Err_stays_witness :
  exists s s',
    exec scheduleTimeout taskTimeout = Some s /\
    exec [RunStep; RunStep; RunStep; RunStep] s = Some s' /\
    rpc s' = RunDone /\ Err (obj s') = Some DeadlineExceeded.
Proof.
  eexists. eexists. split; [vm_compute; reflexivity|].
  split; [vm_compute; reflexivity|]. split; [reflexivity|].
  refine (returned_Err_stays 0 Background (50 * Millisecond)
            (EpAwaitDone (Some epError))
            scheduleTimeout [RunStep; RunStep; RunStep; RunStep] _ _
            (Some DeadlineExceeded) DeadlineExceeded _ _ _ _).
  - vm_compute; reflexivity.
  - right. reflexivity.
  - reflexivity.
  - vm_compute; reflexivity.
Defined.

Lemma tickPeriod_bounds_witness :
  tickPeriod pool100 = 60 * Millisecond /\
  tickPeriod pool2 * maxIdle pool2 * 10
    <= Z.max (maxIdleTime pool2) (100 * Millisecond * maxIdle pool2).
Proof.
  split.
  - rewrite (proj2 (proj2 (tickPeriod_bounds pool100))).
    + reflexivity.
    + vm_compute. reflexivity.
    + vm_compute. discriminate.
  - apply (proj1 (proj2 (tickPeriod_bounds pool2))). vm_compute. reflexivity.
Defined.

Lemma RunTask_runs_once_witness :
  fst (fst (RunTask false pool2)) = NewWorker /\
  In GoWorker (snd (RunTask false pool2)) /\
  fst (fst (RunTask false pool2_busy)) = Detached /\
  In GoRun (snd (RunTask false pool2_busy)).
Proof.
  pose proof (RunTask_runs_once false pool2) as A.
  pose proof (RunTask_runs_once false pool2_busy) as B.
  destruct (RunTask false pool2) as [[h1 p1] e1] eqn:E1.
  destruct (RunTask false pool2_busy) as [[h2 p2] e2] eqn:E2.
  assert (H1 : h1 = NewWorker) by (vm_compute in E1; congruence).
  assert (H2 : h2 = Detached) by (vm_compute in E2; congruence).
  destruct A as (_ & _ & A & _). destruct B as (_ & _ & _ & B & _).
  simpl. split; [exact H1|]. split; [exact (proj1 A H1)|].
  split; [exact H2 | exact (proj1 B H2)].
Defined.

Lemma workerLoop_idle_exit_witness :
  exists pre now post,
    receptions = pre ++ RecvNoop now :: post /\
    maxIdleTime pool2 < now - lastDone 0 pre.
Proof.
  pose proof (workerLoop_idle_exit pool2 receptions 0 2 (70 * Millisecond) true
                ltac:(vm_compute; reflexivity)) as H.
  destruct H as (pre & now & post & A & _ & B & C).
  exists pre, now, post. rewrite <- B. auto.
Defined.

Lemma parseM_records_witness :
  mapGet "a/b.proto" (parseM (optionsOld ++ ["Ma/b.proto=example.com/pkg;alias"%string]))
  = Some "example.com/pkg"%string.
Proof.
  refine (proj1 (proj2 (parseM_records optionsOld
                          "a/b.proto" "example.com/pkg" "alias" _ _ _))).
  - vm_compute. reflexivity.
  - vm_compute. reflexivity.
  - discriminate.
Defined.

Lemma parseM_shape_witness :
  Index "a/b.proto" "=" < 0 /\ Index "example.com/pkg" ";" < 0.
Proof.
  destruct (parseM_shape optionsMixed
              "a/b.proto" "example.com/pkg" ltac:(vm_compute; reflexivity))
    as (A & B & _).
  split; [exact A | exact B].
Defined.

Lemma getCombineServiceName_fresh_witness :
  getCombineServiceName "CombineService" takenNames = Some "CombineService__"%string.
Proof.
  destruct (getCombineServiceName_fresh "CombineService" takenNames)
    as (k & Hk & A & B & C).
  rewrite A. f_equal.
  destruct k as [|[|[|k]]].
  - vm_compute in B. discriminate B.
  - vm_compute in B. discriminate B.
  - reflexivity.
  - specialize (C 2%nat ltac:(lia)). vm_compute in C. discriminate C.
Defined.

Lemma fixImport_unquotes_witness :
  fixImport (String quote ("example.com/pkg" ++ String quote "")) = "example.com/pkg"%string /\
  fixImport (String quote (String quote "")) = EmptyString.
Proof.
  split.
  - apply (proj2 (proj2 (proj2 (proj2 (fixImport_unquotes "example.com/pkg"))))).
    + reflexivity.
    + reflexivity.
  - apply (proj1 (proj2 (proj2 (proj2 (fixImport_unquotes (String quote (String quote ""))))))).
    reflexivity.
Defined.

Lemma UseProtoc_values_witness :
  UseProtoc "" = true /\ UseProtoc "True" = true /\ UseProtoc "yes" <> true.
Proof.
  split; [|split].
  - apply (proj2 (UseProtoc_values "")). simpl. auto.
  - apply (proj2 (UseProtoc_values "True")). simpl. auto 10.
  - intro H. apply (proj1 (UseProtoc_values "yes")) in H.
    simpl in H. repeat (destruct H as [H|H]; [discriminate H|]). exact H.
Defined.
